(** * RichInput: template parser, field value store and controllers

  A shallow embedding of the RichInput Vue component and the properties of
  its segment-synchronization engine. The repository holds several
  revisions of the component; the embedding follows the latest one (the one
  that emits [change] events and exposes [getText], [getActiveFieldKey],
  ...). The parser, the change handler, the keydown listener,
  [selectOption], [hideDropdown] and [handleClickOutside] read the same in
  the earlier revision, up to the store update and the event; the overlay
  positioning differs and both versions are embedded.

  Conventions.
  - A JavaScript string is its sequence of UTF-16 code units, [list N].
    The zero-width markers U+200B and U+FEFF are single code units.
  - [Record<string, T>] objects used as dictionaries are [gmap (list N) T];
    a missing property ([undefined]) is [None]. A read [obj[k]] is the
    lookup of the own property [k]: this is what the code does for every
    key that is not the name of a member of [Object.prototype]
    ([inherited k = false]), and the embedding is about such keys; for the
    others the read finds the inherited member. [own_keys] states the
    condition for the placeholders of a template.
  - Reactive refs ([ref(...)]) are fields of an explicit state record that
    every handler takes and returns.
  - What a handler reads from the browser (the [innerText] of the editable
    area, the measured rectangles) is an argument of the handler. *)

From Stdlib Require Import ZArith NArith Lia.
From Stdlib Require Import Strings.String Strings.Ascii.
From stdpp Require Import gmap list.

Local Open Scope N_scope.
Local Open Scope nat_scope.

(** ** JavaScript strings *)

Module JSString.

(** ASCII literal to code units (used for literals only). *)
Definition js (s : string) : list N :=
  map N_of_ascii (list_ascii_of_string s).

Definition LBRACE : N := 123%N.   (* '{' *)
Definition RBRACE : N := 125%N.   (* '}' *)
Definition LBRACKET : N := 91%N.  (* '[' *)
Definition RBRACKET : N := 93%N.  (* ']' *)
Definition ZWSP : N := 8203%N.    (* U+200B, zero width space *)
Definition BOM : N := 65279%N.    (* U+FEFF, zero width no-break space *)

(** [s.slice(a, b)] for [0 <= a], [0 <= b]: empty when [b <= a]. *)
Definition slice (s : list N) (a b : nat) : list N :=
  take (b - a) (drop a s).

(** [s.slice(a)]. *)
Definition slice_from (s : list N) (a : nat) : list N := drop a s.

(** [s.replace(/[\u200B\uFEFF]/g, '')]. *)
Definition strip_markers (s : list N) : list N :=
  List.filter (fun c => negb (N.eqb c ZWSP || N.eqb c BOM)) s.

(** WhiteSpace and LineTerminator code units removed by [trim()]. *)
Definition is_trim_space (c : N) : bool :=
  (N.eqb c 9 || N.eqb c 10 || N.eqb c 11 || N.eqb c 12 || N.eqb c 13
   || N.eqb c 32 || N.eqb c 160 || N.eqb c 5760
   || (N.leb 8192 c && N.leb c 8202)
   || N.eqb c 8232 || N.eqb c 8233 || N.eqb c 8239 || N.eqb c 8287
   || N.eqb c 12288 || N.eqb c 65279)%N.

Fixpoint trim_start (s : list N) : list N :=
  match s with
  | c :: s' => if is_trim_space c then trim_start s' else s
  | [] => []
  end.

Definition trim_end (s : list N) : list N := rev (trim_start (rev s)).

(** [s.trim()]. *)
Definition trim (s : list N) : list N := trim_end (trim_start s).

End JSString.
Import JSString.

(** ** The placeholder pattern [/\{([^}]+)\}/g] *)

Module PlaceholderRegExp.

(** The result of a successful [exec]: [match.index] and [match[1]].
    [match[0]] is the brace, the key and the closing brace. *)
Record RegExpExecArray := {
  index : nat;
  group1 : list N;
}.

(** [[^}]+\}] read greedily: the code units before the first closing
    brace, when there is one. *)
Fixpoint key_run (s : list N) : option (list N) :=
  match s with
  | [] => None
  | c :: s' =>
      if N.eqb c RBRACE then Some []
      else match key_run s' with
           | Some k => Some (c :: k)
           | None => None
           end
  end.

(** A match that starts at the first code unit of [s]. *)
Definition match_here (s : list N) : option (list N) :=
  match s with
  | c :: s' =>
      if N.eqb c LBRACE then
        match key_run s' with
        | Some (k :: ks) => Some (k :: ks)
        | _ => None
        end
      else None
  | [] => None
  end.

(** Leftmost match in [s], the part of the subject that starts at
    position [i]. *)
Fixpoint search (s : list N) (i : nat) : option RegExpExecArray :=
  match s with
  | [] => None
  | _ :: s' =>
      match match_here s with
      | Some k => Some {| index := i; group1 := k |}
      | None => search s' (S i)
      end
  end.

(** [regex.exec(subject)] with the global flag, reading and writing
    [regex.lastIndex]: the match (or [null]) and the new [lastIndex]. *)
Definition exec (subject : list N) (lastIndex : nat)
  : option RegExpExecArray * nat :=
  match search (drop lastIndex subject) lastIndex with
  | Some m => (Some m, index m + (length (group1 m) + 2))
  | None => (None, 0)
  end.

(** [subject.replace(regex, replacer)] with a replacer function of the
    matched text's first group: the loop of RegExp.prototype[@@replace]. *)
Fixpoint replace_loop (fuel : nat) (subject : list N) (lastIndex : nat)
    (replacer : list N -> list N) (acc : list N) : list N :=
  match fuel with
  | O => acc
  | S fuel' =>
      match exec subject lastIndex with
      | (Some m, next) =>
          replace_loop fuel' subject next replacer
            (acc ++ slice subject lastIndex (index m) ++ replacer (group1 m))
      | (None, _) => acc ++ slice_from subject lastIndex
      end
  end.

Definition replace (subject : list N) (replacer : list N -> list N) : list N :=
  replace_loop (S (length subject)) subject 0 replacer [].

End PlaceholderRegExp.
Import PlaceholderRegExp.

(** ** Data model *)

(** [InputField | SelectField]. [defaultValue] is read through
  [{ defaultValue?: string }], so it may be absent. *)
Inductive Field :=
| InputField (placeholder : list N) (defaultValue : option (list N))
| SelectField (options : list (list N)) (defaultValue : option (list N)).

Definition defaultValue (f : Field) : option (list N) :=
match f with
| InputField _ d => d
| SelectField _ d => d
end.

Record RichInputConfig := {
template : list N;
fields : gmap (list N) Field;
}.

Inductive SegmentType := TEXT | FIELD.

Record TemplateSegment := {
type : SegmentType;
content : list N;
fieldKey : option (list N);
fieldConfig : option Field;
}.

Definition text_segment (c : list N) : TemplateSegment :=
{| type := TEXT; content := c; fieldKey := None; fieldConfig := None |}.

(** The template literal [`[${key}]`]. *)
Definition bracketed (key : list N) : list N :=
LBRACKET :: key ++ [RBRACKET].

(** [stored || dflt || `[${key}]`]: the empty string and [undefined] are
  both falsy. *)
Definition resolve_or (stored dflt : option (list N)) (key : list N) : list N :=
match stored with
| Some (c :: v) => c :: v
| _ => match dflt with
       | Some (c :: d) => c :: d
       | _ => bracketed key
       end
end.

(** [stored ?? dflt ?? `[${key}]`]: only [undefined] falls through. *)
Definition resolve_nullish (stored dflt : option (list N)) (key : list N) : list N :=
match stored with
| Some v => v
| None => match dflt with
          | Some d => d
          | None => bracketed key
          end
end.

(** ** Template parser: [templateSegments] *)

Section Parser.

Variable config : RichInputConfig.
Variable fieldValues : gmap (list N) (list N).

(** The body of the [while ((match = regex.exec(template)) !== null)] loop
    followed by the trailing-text step; [fuel] bounds the iterations. *)
Fixpoint templateSegments_loop (fuel : nat) (lastIndex : nat)
    (segments : list TemplateSegment) : list TemplateSegment :=
  match fuel with
  | O => segments
  | S fuel' =>
      match exec (template config) lastIndex with
      | (Some m, regex_lastIndex) =>
          let segments1 :=
            if lastIndex <? index m
            then segments ++ [text_segment (slice (template config) lastIndex (index m))]
            else segments in
          let fieldKey := group1 m in
          let segments2 :=
            match fields config !! fieldKey with
            | Some fieldConfig =>
                segments1 ++
                [{| type := FIELD;
                    content := resolve_or (fieldValues !! fieldKey)
                                          (defaultValue fieldConfig) fieldKey;
                    fieldKey := Some fieldKey;
                    fieldConfig := Some fieldConfig |}]
            | None => segments1
            end in
          templateSegments_loop fuel' regex_lastIndex segments2
      | (None, _) =>
          if lastIndex <? length (template config)
          then segments ++ [text_segment (slice_from (template config) lastIndex)]
          else segments
      end
  end.

Definition templateSegments : list TemplateSegment :=
  templateSegments_loop (S (length (template config))) 0 [].

(** [getCurrentText]. *)
Definition getCurrentText : list N :=
  replace (template config) (fun key =>
    match fields config !! key with
    | None => LBRACE :: key ++ [RBRACE]
    | Some field => resolve_nullish (fieldValues !! key) (defaultValue field) key
    end).

End Parser.


(** ** Placeholders, declaratively

    What the prose calls a well-formed placeholder: an opening brace, a
    non-empty key without closing brace, a closing brace. *)

Definition valid_key (k : list N) : Prop := k ≠ [] ∧ RBRACE ∉ k.

(** A well-formed placeholder with key [k] starts at position [n] of [s]. *)
Definition occurs_at (s : list N) (n : nat) (k : list N) : Prop :=
  ∃ r, drop n s = LBRACE :: k ++ RBRACE :: r ∧ valid_key k.

(** [Placeholders s parts tail]: reading [s] from the left, the successive
    placeholder occurrences are the keys of [parts], each preceded by the
    literal text paired with it, and [tail] is what follows the last one. *)
Inductive Placeholders : list N → list (list N * list N) → list N → Prop :=
  | placeholders_tail (t : list N) :
      (∀ n k, ¬ occurs_at t n k) →
      Placeholders t [] t
  | placeholders_cons (lit k rest : list N) parts tail :
      valid_key k →
      (∀ n k', n < length lit → ¬ occurs_at (lit ++ LBRACE :: k ++ RBRACE :: rest) n k') →
      Placeholders rest parts tail →
      Placeholders (lit ++ LBRACE :: k ++ RBRACE :: rest) ((lit, k) :: parts) tail.

(** The template with every placeholder replaced by [value key]. *)
Definition substitute (value : list N → list N)
    (parts : list (list N * list N)) (tail : list N) : list N :=
  concat (map (λ p, p.1 ++ value p.2) parts) ++ tail.

(** Executable reading of the same structure. *)
Fixpoint split_placeholders (fuel : nat) (s : list N)
  : list (list N * list N) * list N :=
  match fuel with
  | O => ([], s)
  | S fuel' =>
      match search s 0 with
      | Some m =>
          let rest := drop (index m + (length (group1 m) + 2)) s in
          let '(parts, tail) := split_placeholders fuel' rest in
          ((take (index m) s, group1 m) :: parts, tail)
      | None => ([], s)
      end
  end.

(** The segments the prose describes for a template read as [parts] and
    [tail]: literal text (when not empty), then the field. *)
Definition field_segment (config : RichInputConfig)
    (fieldValues : gmap (list N) (list N)) (k : list N) : list TemplateSegment :=
  match fields config !! k with
  | Some f =>
      [{| type := FIELD;
          content := resolve_or (fieldValues !! k) (defaultValue f) k;
          fieldKey := Some k;
          fieldConfig := Some f |}]
  | None => []
  end.

Definition literal_segment (lit : list N) : list TemplateSegment :=
  match lit with
  | [] => []
  | _ :: _ => [text_segment lit]
  end.

Definition segments_of (config : RichInputConfig)
    (fieldValues : gmap (list N) (list N))
    (parts : list (list N * list N)) (tail : list N) : list TemplateSegment :=
  concat (map (λ p, literal_segment p.1 ++ field_segment config fieldValues p.2) parts)
  ++ literal_segment tail.

(** ** Field value store *)

(** [initializeFieldValues]: every key of the configuration is set to
    [field.defaultValue || '']. *)
Definition initializeFieldValues (config : RichInputConfig) : gmap (list N) (list N) :=
  (λ f, match defaultValue f with
        | Some d => d
        | None => []
        end) <$> fields config.

(** The computed [OPTIONS]: the options of the select fields. *)
Definition OPTIONS (config : RichInputConfig) : gmap (list N) (list (list N)) :=
  omap (λ f, match f with
             | SelectField options _ => Some options
             | InputField _ _ => None
             end) (fields config).

(** ** Component state: dropdown and change notification *)

(** The painted region of a select field: what the handlers read and
    write of it. *)
Record DropdownFieldElement := {
  el_textContent : list N;
  el_data_value : list N;
  el_data_field_key : option (list N);
}.

Record CSSPosition := {
  css_top : Z;
  css_left : Z;
}.

(** The payload of the [change] event. *)
Record ChangePayload := {
  payload_text : list N;
  payload_values : gmap (list N) (list N);
}.

(** The refs of the component. Elements are referred to by identity
    ([nat]); [dropdownMenuRef] holds, when the overlay is painted, the
    identities of the overlay element and of its descendants (what
    [contains] answers on); [emitted] is the sequence of [change] events
    handed to the host so far. *)
Record Component := {
  fieldValues : gmap (list N) (list N);
  showDropdown : bool;
  currentField : list N;
  currentTarget : option nat;
  currentOptions : list (list N);
  dropdownStyle : CSSPosition;
  dropdownMenuRef : option (gset nat);
  elements : gmap nat DropdownFieldElement;
  emitted : list ChangePayload;
}.

(** The state of a freshly set up component. *)
Definition initial_component (elements : gmap nat DropdownFieldElement) : Component :=
  {| fieldValues := ∅;
     showDropdown := false;
     currentField := [];
     currentTarget := None;
     currentOptions := [];
     dropdownStyle := {| css_top := 0; css_left := 0 |};
     dropdownMenuRef := None;
     elements := elements;
     emitted := [] |}.

(** [getDisplayText]. [innerText] is [None] when [smartInputRef.value] is
    null and otherwise what the browser reports as the element's
    [innerText] at the time of the call. *)
Definition getDisplayText (config : RichInputConfig) (innerText : option (list N))
    (c : Component) : list N :=
  match innerText with
  | None => getCurrentText config (fieldValues c)
  | Some raw => strip_markers raw
  end.

Definition getValues (c : Component) : gmap (list N) (list N) := fieldValues c.


(** The exposed [getActiveFieldKey: () => currentField.value]. *)
Definition getActiveFieldKey (c : Component) : list N := currentField c.

(** [emitChange]: one more [change] event, with the display text and a copy
    of the store. *)
Definition emitChange (config : RichInputConfig) (innerText : option (list N))
    (c : Component) : Component :=
  {| fieldValues := fieldValues c;
     showDropdown := showDropdown c;
     currentField := currentField c;
     currentTarget := currentTarget c;
     currentOptions := currentOptions c;
     dropdownStyle := dropdownStyle c;
     dropdownMenuRef := dropdownMenuRef c;
     elements := elements c;
     emitted := emitted c ++
       [{| payload_text := getDisplayText config innerText c;
           payload_values := fieldValues c |}] |}.

(** [fieldValues.value[key] = value]. *)
Definition set_fieldValue (key value : list N) (c : Component) : Component :=
  {| fieldValues := <[key := value]> (fieldValues c);
     showDropdown := showDropdown c;
     currentField := currentField c;
     currentTarget := currentTarget c;
     currentOptions := currentOptions c;
     dropdownStyle := dropdownStyle c;
     dropdownMenuRef := dropdownMenuRef c;
     elements := elements c;
     emitted := emitted c |}.

(** [target.textContent = option; target.setAttribute('data-value', option)]. *)
Definition set_displayed (target : nat) (option : list N) (c : Component) : Component :=
  {| fieldValues := fieldValues c;
     showDropdown := showDropdown c;
     currentField := currentField c;
     currentTarget := currentTarget c;
     currentOptions := currentOptions c;
     dropdownStyle := dropdownStyle c;
     dropdownMenuRef := dropdownMenuRef c;
     elements := alter (λ e, {| el_textContent := option;
                                el_data_value := option;
                                el_data_field_key := el_data_field_key e |})
                       target (elements c);
     emitted := emitted c |}.

(** The synchronous part of [showDropdownMenu], up to [await nextTick()]. *)
Definition showDropdownMenu (config : RichInputConfig) (target : nat)
    (type : list N) (c : Component) : Component :=
  {| fieldValues := fieldValues c;
     showDropdown := true;
     currentField := type;
     currentTarget := Some target;
     currentOptions := default [] (OPTIONS config !! type);
     dropdownStyle := dropdownStyle c;
     dropdownMenuRef := dropdownMenuRef c;
     elements := elements c;
     emitted := emitted c |}.

(** [handleDropdownClick], on the painted region [target]. *)
Definition handleDropdownClick (config : RichInputConfig) (target : nat)
    (c : Component) : Component :=
  match elements c !! target with
  | Some e =>
      match el_data_field_key e with
      | Some (u :: key) =>
          match OPTIONS config !! (u :: key) with
          | Some _ => showDropdownMenu config target (u :: key) c
          | None => c
          end
      | _ => c
      end
  | None => c
  end.

(** [hideDropdown]. *)
Definition hideDropdown (c : Component) : Component :=
  {| fieldValues := fieldValues c;
     showDropdown := false;
     currentField := currentField c;
     currentTarget := None;
     currentOptions := [];
     dropdownStyle := dropdownStyle c;
     dropdownMenuRef := dropdownMenuRef c;
     elements := elements c;
     emitted := emitted c |}.

(** [selectOption]. *)
Definition selectOption (config : RichInputConfig) (innerText : option (list N))
    (option : list N) (c : Component) : Component :=
  let c1 :=
    match currentField c, currentTarget c with
    | _ :: _, Some target =>
        set_displayed target option (set_fieldValue (currentField c) option c)
    | _, _ => c
    end in
  hideDropdown (emitChange config innerText c1).

(** [handleClickOutside], for an event whose target is the node
    [event_target]. *)
Definition handleClickOutside (event_target : nat) (c : Component) : Component :=
  if negb (showDropdown c) then c
  else
    let isClickInsideDropdown :=
      match dropdownMenuRef c with
      | Some overlay => bool_decide (event_target ∈ overlay)
      | None => false
      end in
    if negb isClickInsideDropdown then hideDropdown c else c.

(** ** Overlay positioning

    Lengths are CSS pixels, idealised as integers. [DOMRect] is what
    [getBoundingClientRect] returns. *)

Record DOMRect := {
  rect_left : Z;
  rect_top : Z;
  rect_width : Z;
  rect_height : Z;
}.

Definition rect_bottom (r : DOMRect) : Z := (rect_top r + rect_height r)%Z.
Definition rect_right (r : DOMRect) : Z := (rect_left r + rect_width r)%Z.

(** What the second half of [showDropdownMenu] measures once the overlay is
    painted. [containerRect] is [None] when [containerRef.value] is null and
    [dropdownMenu] is [None] when [dropdownMenuRef.value] is null. *)
Record ContainerMetrics := {
  containerRect : DOMRect;
  scrollLeft : Z;
  scrollTop : Z;
  clientWidth : Z;
}.

Record OverlayMetrics := {
  dropdownRect : DOMRect;
  offsetWidth : Z;
}.

Record Layout := {
  targetRect : DOMRect;
  container : option ContainerMetrics;
  dropdownMenu : option OverlayMetrics;
}.

(** The revision that measures overlay and container with
    [getBoundingClientRect] and checks both axes. *)
Module RectPositioning.

Definition position (l : Layout) (style : CSSPosition) : CSSPosition :=
  match container l with
  | None => style
  | Some cont =>
      let relativeTop := (rect_bottom (targetRect l) - rect_top (containerRect cont))%Z in
      let relativeLeft := (rect_left (targetRect l) - rect_left (containerRect cont))%Z in
      let style1 := {| css_top := relativeTop + 4; css_left := relativeLeft |} in
      match dropdownMenu l with
      | None => style1
      | Some menu =>
          let dropdownWidth := rect_width (dropdownRect menu) in
          let dropdownHeight := rect_height (dropdownRect menu) in
          let predictedRight := (relativeLeft + dropdownWidth)%Z in
          let predictedBottom := ((relativeTop + 4) + dropdownHeight)%Z in
          let containerWidth := rect_width (containerRect cont) in
          let style2 :=
            if (containerWidth <? predictedRight)%Z then
              let adjustment := (predictedRight - containerWidth + 10)%Z in
              {| css_top := css_top style1;
                 css_left := Z.max (relativeLeft - adjustment) 0 |}
            else style1 in
          let containerHeight := rect_height (containerRect cont) in
          if (containerHeight <? predictedBottom)%Z then
            let relativeTopAbove :=
              (rect_top (targetRect l) - rect_top (containerRect cont) - dropdownHeight)%Z in
            {| css_top := Z.max (relativeTopAbove - 4) 0;
               css_left := css_left style2 |}
          else style2
      end
  end.

End RectPositioning.

(** The revision that compensates for the container's scroll offset and
    recovers horizontally only ("the menu always stays below the slot"). *)
Module ScrollPositioning.

Definition position (l : Layout) (style : CSSPosition) : CSSPosition :=
  match container l with
  | None => style
  | Some cont =>
      let anchorLeft :=
        (rect_left (targetRect l) - rect_left (containerRect cont) + scrollLeft cont)%Z in
      let anchorTop :=
        (rect_bottom (targetRect l) - rect_top (containerRect cont) + scrollTop cont + 4)%Z in
      let style1 := {| css_top := anchorTop; css_left := anchorLeft |} in
      match dropdownMenu l with
      | None => style1
      | Some menu =>
          let dropdownWidth := offsetWidth menu in
          let containerWidth := clientWidth cont in
          let predictedRight := (anchorLeft + dropdownWidth)%Z in
          if (containerWidth <? predictedRight)%Z then
            let adjustment := (predictedRight - containerWidth + 10)%Z in
            {| css_top := css_top style1;
               css_left := Z.max (anchorLeft - adjustment) 0 |}
          else style1
      end
  end.

End ScrollPositioning.

(** The positioning rule of the prose, as a property of a positioning
    function: when the overlay is painted and its bottom edge, placed
    below the clicked element, would pass the container's bottom edge, the
    overlay goes above the element, its top floored at the container's top
    edge. *)
Definition overflow_below (l : Layout) (cont : ContainerMetrics)
    (menu : OverlayMetrics) : Prop :=
  (rect_height (containerRect cont)
   < rect_bottom (targetRect l) - rect_top (containerRect cont) + 4
     + rect_height (dropdownRect menu))%Z.

Definition anchored_above (l : Layout) (cont : ContainerMetrics)
    (menu : OverlayMetrics) : Z :=
  Z.max (rect_top (targetRect l) - rect_top (containerRect cont)
         - rect_height (dropdownRect menu) - 4) 0.

Definition flips_above (position : Layout → CSSPosition → CSSPosition) : Prop :=
  ∀ l style cont menu,
    container l = Some cont →
    dropdownMenu l = Some menu →
    overflow_below l cont menu →
    css_top (position l style) = anchored_above l cont menu.

(** ** Document nodes around an editable field *)

#[warnings="-register-all"]
Inductive Node :=
  | TextNode (data : list N)
  | CommentNode (data : list N)
  | Element (childNodes : list Node).

(** [node.textContent] of a text node or of an element: the data of the
    text nodes below it, in document order (comments contribute nothing). *)
Fixpoint textContent (n : Node) : list N :=
  match n with
  | TextNode d => d
  | CommentNode _ => []
  | Element cs => concat (map textContent cs)
  end.

(** The length of a node, as [Range.setStart] checks it. *)
Definition node_length (n : Node) : nat :=
  match n with
  | TextNode d => length d
  | CommentNode d => length d
  | Element cs => length cs
  end.

(** [node.nodeType === 3 ? (node.textContent?.length || 0)
                         : node.childNodes.length]. *)
Definition caret_length (n : Node) : nat :=
  match n with
  | TextNode d => length d
  | CommentNode _ => 0
  | Element cs => length cs
  end.

(** The node reached from [n] through the child indices [path]. *)
Fixpoint node_at (n : Node) (path : list nat) : option Node :=
  match path with
  | [] => Some n
  | i :: path' =>
      match n with
      | Element cs =>
          match cs !! i with
          | Some c => node_at c path'
          | None => None
          end
      | _ => None
      end
  end.

(** The text of [n] that lies before the boundary point ([path], [offset]). *)
Fixpoint text_before (n : Node) (path : list nat) (offset : nat) : list N :=
  match path with
  | [] =>
      match n with
      | TextNode d => take offset d
      | CommentNode _ => []
      | Element cs => concat (map textContent (take offset cs))
      end
  | i :: path' =>
      match n with
      | Element cs =>
          concat (map textContent (take i cs)) ++
          match cs !! i with
          | Some c => text_before c path' offset
          | None => []
          end
      | _ => []
      end
  end.

(** Text nodes below the [i]-th and later children [cs], by path, given the
    enumeration [below] for one child. *)
Fixpoint text_nodes_from (below : Node → list (list nat * list N))
    (cs : list Node) (i : nat) : list (list nat * list N) :=
  match cs with
  | [] => []
  | c :: cs' =>
      map (λ pd, (i :: pd.1, pd.2)) (below c) ++ text_nodes_from below cs' (S i)
  end.

(** The text nodes a [TreeWalker] with [NodeFilter.SHOW_TEXT] visits in the
    subtree of [n], in document order, each with its path and data. *)
Fixpoint text_nodes (n : Node) : list (list nat * list N) :=
  match n with
  | TextNode d => [([], d)]
  | CommentNode _ => []
  | Element cs => text_nodes_from text_nodes cs 0
  end.

(** [focusNode] of the keydown listener: the node that takes the caret, as
    its path below [node] and the node itself. A text node is taken as it
    is; otherwise the last text node the walker visits, or the node itself
    when there is none. *)
Definition focusNode (node : option Node) : option (list nat * Node) :=
  match node with
  | None => None
  | Some (TextNode d) => Some ([], TextNode d)
  | Some n =>
      match last (text_nodes n) with
      | Some (path, d) => Some (path, TextNode d)
      | None => Some ([], n)
      end
  end.

(** Which node a range starts in. *)
Inductive BoundaryNode :=
  | InSibling (i : nat) (path : list nat)
      (* below the [i]-th remaining child of the field's former parent *)
  | InParent
      (* the field's former parent *)
  | InInputSpan (path : list nat)
      (* the captured [inputSpan], or below it *)
  | InCreatedSpan (n : nat) (path : list nat).
      (* the [n]-th span made by [ensureInputElement], or below it *)

Inductive Range :=
  | Collapsed (node : BoundaryNode) (offset : nat)
  | SmartInputEnd.  (* [selectNodeContents(smartInput); collapse(false)] *)

(** [range.setStart(node, offset)] throws when [offset] exceeds the length
    of [node]. *)
Definition setStart (node : BoundaryNode) (length_of_node offset : nat) : option Range :=
  if offset <=? length_of_node then Some (Collapsed node offset) else None.

Inductive Timer :=
  | ClearProgrammaticChange   (* [setTimeout(() => { isProgrammaticChange = false }, 0)] *)
  | DeferredHandleChange.     (* [setTimeout(handleChange, 0)] *)

Inductive FieldEvent :=
  | keydown (key : string)
  | input
  | paste
  | cut
  | blur.

(** ** Editable-field controller: the closure of [handleEditableField]

    The closure variables ([isProgrammaticChange], the captured [inputSpan])
    and what the handlers read and write of the document: the child nodes
    of [inputSpan], the spans [ensureInputElement] created, two attributes
    of the field element ([target]), the children of [target.parentNode]
    before and after [target], the window selection and the pending
    timers. *)
Record EditableField := {
  isProgrammaticChange : bool;
  inputSpan : list Node;
  inputSpan_isConnected : bool;
  createdSpans : list (list Node);
  data_has_content : option bool;
  data_field_key : option (list N);
  hasParent : bool;
  previousSiblings : list Node;
  nextSiblings : list Node;
  smartInput_mounted : bool;
  selection : option Range;
  timers : list Timer;
  defaultPrevented : bool;
}.

Inductive SpanRef := CapturedSpan | CreatedSpan (n : nat).

Definition span_childNodes (f : EditableField) (r : SpanRef) : list Node :=
  match r with
  | CapturedSpan => inputSpan f
  | CreatedSpan n => default [] (createdSpans f !! n)
  end.

Definition span_textContent (f : EditableField) (r : SpanRef) : list N :=
  concat (map textContent (span_childNodes f r)).

Definition span_boundary (r : SpanRef) (path : list nat) : BoundaryNode :=
  match r with
  | CapturedSpan => InInputSpan path
  | CreatedSpan n => InCreatedSpan n path
  end.

(** [ensureInputElement]: the captured span while it is connected;
    otherwise a new span holding one marker, inserted before the
    placeholder. *)
Definition ensureInputElement (f : EditableField) : SpanRef * EditableField :=
  if inputSpan_isConnected f then (CapturedSpan, f)
  else
    (CreatedSpan (length (createdSpans f)),
     {| isProgrammaticChange := isProgrammaticChange f;
        inputSpan := inputSpan f;
        inputSpan_isConnected := inputSpan_isConnected f;
        createdSpans := createdSpans f ++ [[TextNode [ZWSP]]];
        data_has_content := data_has_content f;
        data_field_key := data_field_key f;
        hasParent := hasParent f;
        previousSiblings := previousSiblings f;
        nextSiblings := nextSiblings f;
        smartInput_mounted := smartInput_mounted f;
        selection := selection f;
        timers := timers f;
        defaultPrevented := defaultPrevented f |}).

(** The empty-content branch of [handleChange]: raise the flag, replace
    the content of [currentSpan] by one marker, put the caret after it,
    schedule the clearing of the flag. [removeAllRanges] empties the
    selection and [addRange] ignores a range that is not in the document:
    the caret is set when [currentSpan] is in the document (the captured
    span while connected, a created span while the field element has its
    parent) and the selection is left without range otherwise. *)
Definition insert_marker (currentSpan : SpanRef) (f : EditableField) : EditableField :=
  {| isProgrammaticChange := true;
     inputSpan :=
       match currentSpan with
       | CapturedSpan => [TextNode [ZWSP]]
       | CreatedSpan _ => inputSpan f
       end;
     inputSpan_isConnected := inputSpan_isConnected f;
     createdSpans :=
       match currentSpan with
       | CapturedSpan => createdSpans f
       | CreatedSpan n => <[n := [TextNode [ZWSP]]]> (createdSpans f)
       end;
     data_has_content := data_has_content f;
     data_field_key := data_field_key f;
     hasParent := hasParent f;
     previousSiblings := previousSiblings f;
     nextSiblings := nextSiblings f;
     smartInput_mounted := smartInput_mounted f;
     selection :=
       if match currentSpan with
          | CapturedSpan => inputSpan_isConnected f
          | CreatedSpan _ => hasParent f
          end
       then Some (Collapsed (span_boundary currentSpan [0]) 1)
       else None;
     timers := timers f ++ [ClearProgrammaticChange];
     defaultPrevented := defaultPrevented f |}.

(** [target.setAttribute('data-has-content', hasContent ? 'true' : 'false')]. *)
Definition set_has_content (hasContent : bool) (f : EditableField) : EditableField :=
  {| isProgrammaticChange := isProgrammaticChange f;
     inputSpan := inputSpan f;
     inputSpan_isConnected := inputSpan_isConnected f;
     createdSpans := createdSpans f;
     data_has_content := Some hasContent;
     data_field_key := data_field_key f;
     hasParent := hasParent f;
     previousSiblings := previousSiblings f;
     nextSiblings := nextSiblings f;
     smartInput_mounted := smartInput_mounted f;
     selection := selection f;
     timers := timers f;
     defaultPrevented := defaultPrevented f |}.

Definition is_empty_string (s : list N) : bool :=
  match s with
  | [] => true
  | _ :: _ => false
  end.

(** [handleChange]. *)
Definition handleChange (config : RichInputConfig) (innerText : option (list N))
    (fc : EditableField * Component) : EditableField * Component :=
  if isProgrammaticChange fc.1 then fc
  else
    let '(currentSpan, f1) := ensureInputElement fc.1 in
    let rawText := span_textContent f1 currentSpan in
    let normalized := strip_markers rawText in
    let hasContent := negb (is_empty_string (trim normalized)) in
    let f2 := if hasContent then f1 else insert_marker currentSpan f1 in
    let f3 := set_has_content hasContent f2 in
    match data_field_key f3 with
    | Some (u :: key) =>
        (f3, emitChange config innerText
               (set_fieldValue (u :: key) (trim normalized) fc.2))
    | _ => (f3, fc.2)
    end.

(** The whole-field deletion of the keydown listener:
    [e.preventDefault()], [target.remove()], then the caret. The parent of
    the field element, when it has one, is in the document. Without
    parent the range is made in the detached input span: [removeAllRanges]
    empties the selection and [addRange] ignores that range. *)
Definition remove_field (f : EditableField) : EditableField :=
  let parent := hasParent f in
  let prev := if parent then last (previousSiblings f) else None in
  let next := if parent then head (nextSiblings f) else None in
  (* after [target.remove()] the remaining children are
     [previousSiblings ++ nextSiblings] *)
  let nodeForCaret : BoundaryNode * Node :=
    match focusNode prev with
    | Some (path, n) => (InSibling (length (previousSiblings f) - 1) path, n)
    | None =>
        match focusNode next with
        | Some (path, n) => (InSibling (length (previousSiblings f)) path, n)
        | None =>
            if parent
            then (InParent, Element (previousSiblings f ++ nextSiblings f))
            else (InInputSpan [], Element (inputSpan f))
        end
    end in
  let length := caret_length nodeForCaret.2 in
  let new_selection :=
    match setStart nodeForCaret.1 (node_length nodeForCaret.2) (Nat.max length 0) with
    | Some range => if parent then Some range else None
    | None => if smartInput_mounted f then Some SmartInputEnd else selection f
    end in
  {| isProgrammaticChange := isProgrammaticChange f;
     inputSpan := inputSpan f;
     inputSpan_isConnected := false;
     createdSpans := createdSpans f;
     data_has_content := data_has_content f;
     data_field_key := data_field_key f;
     hasParent := false;
     previousSiblings := previousSiblings f;
     nextSiblings := nextSiblings f;
     smartInput_mounted := smartInput_mounted f;
     selection := new_selection;
     timers := timers f;
     defaultPrevented := true |}.

Definition schedule (t : Timer) (f : EditableField) : EditableField :=
  {| isProgrammaticChange := isProgrammaticChange f;
     inputSpan := inputSpan f;
     inputSpan_isConnected := inputSpan_isConnected f;
     createdSpans := createdSpans f;
     data_has_content := data_has_content f;
     data_field_key := data_field_key f;
     hasParent := hasParent f;
     previousSiblings := previousSiblings f;
     nextSiblings := nextSiblings f;
     smartInput_mounted := smartInput_mounted f;
     selection := selection f;
     timers := timers f ++ [t];
     defaultPrevented := defaultPrevented f |}.

Definition is_delete_key (key : string) : bool :=
  (String.eqb key "Backspace" || String.eqb key "Delete")%bool.

(** The listener one closure of [handleEditableField] binds to [keydown],
    [input], [paste], [cut] and [blur]; [fc.1] is the field as that closure
    sees it. An event runs the listeners of all closures, see [dispatch]. *)
Definition listener (config : RichInputConfig) (innerText : option (list N))
    (e : FieldEvent) (fc : EditableField * Component) : EditableField * Component :=
  match e with
  | keydown key =>
      let raw := concat (map textContent (inputSpan fc.1)) in
      let isEmpty := is_empty_string (trim (strip_markers raw)) in
      if (is_delete_key key && isEmpty)%bool then (remove_field fc.1, fc.2)
      else if is_delete_key key then (schedule DeferredHandleChange fc.1, fc.2)
      else handleChange config innerText fc
  | _ => handleChange config innerText fc
  end.

(** [f] seen from a closure whose flag is [flag]. *)
Definition with_flag (flag : bool) (f : EditableField) : EditableField :=
  {| isProgrammaticChange := flag;
     inputSpan := inputSpan f;
     inputSpan_isConnected := inputSpan_isConnected f;
     createdSpans := createdSpans f;
     data_has_content := data_has_content f;
     data_field_key := data_field_key f;
     hasParent := hasParent f;
     previousSiblings := previousSiblings f;
     nextSiblings := nextSiblings f;
     smartInput_mounted := smartInput_mounted f;
     selection := selection f;
     timers := timers f;
     defaultPrevented := defaultPrevented f |}.

(** One event on a field element. Every click on the field runs
    [handleEditableField] again ([handleEditableClick]), which makes a new
    closure with its own flag and adds its listener; none is ever removed.
    An event therefore runs the listener of every closure, oldest first, on
    the same document. [flags] holds the flag of each closure (all of them
    captured the same input span); the result holds the flags afterwards
    and the state the last listener left. *)
Definition dispatch (config : RichInputConfig) (innerText : option (list N))
    (e : FieldEvent) (flags : list bool) (fc : EditableField * Component)
  : list bool * (EditableField * Component) :=
  foldl (λ acc flag,
           let st := listener config innerText e (with_flag flag acc.2.1, acc.2.2) in
           (acc.1 ++ [isProgrammaticChange st.1], st))
        ([], fc) flags.

(** ** Keys that a plain object inherits

    The names of the members of [Object.prototype]: a read of one of them
    on an object without such an own property finds the inherited member,
    not [undefined]. *)
Definition Object_prototype_keys : list (list N) :=
  [js "constructor"; js "__proto__"; js "hasOwnProperty"; js "isPrototypeOf";
   js "propertyIsEnumerable"; js "toString"; js "toLocaleString"; js "valueOf";
   js "__defineGetter__"; js "__defineSetter__";
   js "__lookupGetter__"; js "__lookupSetter__"].

Definition inherited (k : list N) : bool :=
  bool_decide (k ∈ Object_prototype_keys).

(** No placeholder key among [parts] names an inherited member. *)
Definition own_keys (parts : list (list N * list N)) : Prop :=
  Forall (λ p, inherited p.2 = false) parts.

(** ** Resolved content of a field, in the words of the data model

    Written without the parser's functions. [resolvedContent] is the
    reading that takes a stored or default value only when it is a
    non-empty string; [resolvedContent_nullish] is the reading "current
    store value, else definition default, else the literal [[key]]" that
    takes any stored string, the empty one included. Both are the empty
    string for a key without field definition. *)

Definition nonempty_string (s : option (list N)) : option (list N) :=
  match s with
  | Some s' => if is_empty_string s' then None else Some s'
  | None => None
  end.

Definition resolvedContent (config : RichInputConfig)
    (fieldValues : gmap (list N) (list N)) (k : list N) : list N :=
  match fields config !! k with
  | Some f =>
      from_option id
        (from_option id ([91%N] ++ k ++ [93%N]) (nonempty_string (defaultValue f)))
        (nonempty_string (fieldValues !! k))
  | None => []
  end.

Definition resolvedContent_nullish (config : RichInputConfig)
    (fieldValues : gmap (list N) (list N)) (k : list N) : list N :=
  match fields config !! k with
  | Some f =>
      from_option id
        (from_option id ([91%N] ++ k ++ [93%N]) (defaultValue f))
        (fieldValues !! k)
  | None => []
  end.

(** The keys of the field segments, in order. *)
Definition segment_keys (segments : list TemplateSegment) : list (list N) :=
  omap (λ seg, match type seg with
               | FIELD => fieldKey seg
               | TEXT => None
               end) segments.

(** The contents of the text segments, in order. *)
Definition segment_texts (segments : list TemplateSegment) : list (list N) :=
  omap (λ seg, match type seg with
               | TEXT => Some (content seg)
               | FIELD => None
               end) segments.

(** The pieces of literal text that are not empty, in order. *)
Definition nonempty_literals (lits : list (list N)) : list (list N) :=
  List.filter (λ lit, negb (is_empty_string lit)) lits.

Definition known_keys (config : RichInputConfig)
    (parts : list (list N * list N)) : Prop :=
  Forall (λ p, is_Some (fields config !! p.2)) parts.


(** ** Reachable component states

    The component starts closed with an empty store; afterwards the store
    is seeded ([onMounted], configuration change), the render driver paints
    or unpaints the overlay element, and the handlers run. A click that
    reaches [handleInputClick] on a select field does what
    [handleDropdownClick] does; a change of an editable field stores a value
    and emits. The host can replace the configuration (the watch on
    [props.config] then seeds the store from the new one and the editable
    area is painted anew) or change it in place (the watch does nothing);
    neither touches the refs of the dropdown. [reachable config c]: the
    component can be in state [c] while its configuration is [config]. *)

Definition set_fieldValues (fv : gmap (list N) (list N)) (c : Component) : Component :=
  {| fieldValues := fv;
     showDropdown := showDropdown c;
     currentField := currentField c;
     currentTarget := currentTarget c;
     currentOptions := currentOptions c;
     dropdownStyle := dropdownStyle c;
     dropdownMenuRef := dropdownMenuRef c;
     elements := elements c;
     emitted := emitted c |}.

Definition set_dropdownMenuRef (overlay : option (gset nat)) (c : Component) : Component :=
  {| fieldValues := fieldValues c;
     showDropdown := showDropdown c;
     currentField := currentField c;
     currentTarget := currentTarget c;
     currentOptions := currentOptions c;
     dropdownStyle := dropdownStyle c;
     dropdownMenuRef := overlay;
     elements := elements c;
     emitted := emitted c |}.

Definition set_dropdownStyle (style : CSSPosition) (c : Component) : Component :=
  {| fieldValues := fieldValues c;
     showDropdown := showDropdown c;
     currentField := currentField c;
     currentTarget := currentTarget c;
     currentOptions := currentOptions c;
     dropdownStyle := style;
     dropdownMenuRef := dropdownMenuRef c;
     elements := elements c;
     emitted := emitted c |}.

Definition set_elements (els : gmap nat DropdownFieldElement) (c : Component)
  : Component :=
  {| fieldValues := fieldValues c;
     showDropdown := showDropdown c;
     currentField := currentField c;
     currentTarget := currentTarget c;
     currentOptions := currentOptions c;
     dropdownStyle := dropdownStyle c;
     dropdownMenuRef := dropdownMenuRef c;
     elements := els;
     emitted := emitted c |}.

Inductive reachable (config : RichInputConfig) : Component → Prop :=
  | reach_initial els :
      reachable config (initial_component els)
  | reach_initializeFieldValues c :
      reachable config c →
      reachable config (set_fieldValues (initializeFieldValues config) c)
  | reach_render overlay c :
      reachable config c →
      reachable config (set_dropdownMenuRef overlay c)
  | reach_position l c :
      reachable config c →
      reachable config
        (set_dropdownStyle (ScrollPositioning.position l (dropdownStyle c)) c)
  | reach_handleDropdownClick target c :
      reachable config c →
      reachable config (handleDropdownClick config target c)
  | reach_selectOption innerText option c :
      reachable config c →
      reachable config (selectOption config innerText option c)
  | reach_handleClickOutside event_target c :
      reachable config c →
      reachable config (handleClickOutside event_target c)
  | reach_handleContainerInput innerText c :
      reachable config c →
      reachable config (emitChange config innerText c)
  | reach_field_change innerText key value c :
      reachable config c →
      reachable config (emitChange config innerText (set_fieldValue key value c))
  | reach_config_replaced config0 c :
      reachable config0 c →
      reachable config (set_fieldValues (initializeFieldValues config) c)
  | reach_config_mutated config0 c :
      reachable config0 c →
      reachable config c
  | reach_repaint els c :
      reachable config c →
      reachable config (set_elements els c).

(** ** A small configuration used in examples *)

Definition demo_config : RichInputConfig :=
  {| template := js "About {topic}";
     fields := {[ js "topic" := SelectField [js "A"; js "B"; js "C"] (Some (js "A")) ]} |}.

Definition demo_elements : gmap nat DropdownFieldElement :=
  {[ 7 := {| el_textContent := js "A"; el_data_value := js "A";
             el_data_field_key := Some (js "topic") |} ]}.

(** The demo component once mounted and with the dropdown of [topic] open. *)
Definition demo_open : Component :=
  handleDropdownClick demo_config 7
    (set_fieldValues (initializeFieldValues demo_config)
       (initial_component demo_elements)).


(** A field holding two spaces, between two pieces of literal text. *)
Definition demo_field : EditableField :=
  {| isProgrammaticChange := false;
     inputSpan := [TextNode (js "  ")];
     inputSpan_isConnected := true;
     createdSpans := [];
     data_has_content := Some true;
     data_field_key := Some (js "name");
     hasParent := true;
     previousSiblings := [TextNode (js "Hi ")];
     nextSiblings := [TextNode (js "!")];
     smartInput_mounted := true;
     selection := None;
     timers := [];
     defaultPrevented := false |}.


(** ** Further parts of the component *)

(** What [initializeFieldValues] stores for a field:
    [field.defaultValue || '']. *)
Definition seeded_value (f : Field) : list N :=
  match defaultValue f with
  | Some d => d
  | None => []
  end.


(** What [getCurrentText] puts in the place of a placeholder. *)
Definition text_replacement (config : RichInputConfig)
    (fieldValues : gmap (list N) (list N)) (key : list N) : list N :=
  match fields config !! key with
  | None => LBRACE :: key ++ [RBRACE]
  | Some f => resolve_nullish (fieldValues !! key) (defaultValue f) key
  end.

(** What distinguishes two segments apart from the content of a field. *)
Definition segment_shape (seg : TemplateSegment)
  : SegmentType * option (list N) * option Field * list N :=
  (type seg, fieldKey seg, fieldConfig seg,
   match type seg with
   | TEXT => content seg
   | FIELD => []
   end).


(** *** One handler step of the component

    The handlers that run on user interaction, without the seeding of the
    store and without the render driver. *)
Inductive handler_step (config : RichInputConfig) : Component → Component → Prop :=
  | step_handleDropdownClick target c :
      handler_step config c (handleDropdownClick config target c)
  | step_selectOption innerText option c :
      handler_step config c (selectOption config innerText option c)
  | step_handleClickOutside event_target c :
      handler_step config c (handleClickOutside event_target c)
  | step_handleContainerInput innerText c :
      handler_step config c (emitChange config innerText c)
  | step_handleChange innerText f c :
      handler_step config c (handleChange config innerText (f, c)).2.

(** *** Timers and the mutation observer of an editable field *)

Definition clear_programmatic_change (f : EditableField) : EditableField :=
  {| isProgrammaticChange := false;
     inputSpan := inputSpan f;
     inputSpan_isConnected := inputSpan_isConnected f;
     createdSpans := createdSpans f;
     data_has_content := data_has_content f;
     data_field_key := data_field_key f;
     hasParent := hasParent f;
     previousSiblings := previousSiblings f;
     nextSiblings := nextSiblings f;
     smartInput_mounted := smartInput_mounted f;
     selection := selection f;
     timers := timers f;
     defaultPrevented := defaultPrevented f |}.

Definition set_timers (ts : list Timer) (f : EditableField) : EditableField :=
  {| isProgrammaticChange := isProgrammaticChange f;
     inputSpan := inputSpan f;
     inputSpan_isConnected := inputSpan_isConnected f;
     createdSpans := createdSpans f;
     data_has_content := data_has_content f;
     data_field_key := data_field_key f;
     hasParent := hasParent f;
     previousSiblings := previousSiblings f;
     nextSiblings := nextSiblings f;
     smartInput_mounted := smartInput_mounted f;
     selection := selection f;
     timers := ts;
     defaultPrevented := defaultPrevented f |}.

(** The callback of a timer. *)
Definition run_timer (config : RichInputConfig) (innerText : option (list N))
    (t : Timer) (fc : EditableField * Component) : EditableField * Component :=
  match t with
  | ClearProgrammaticChange => (clear_programmatic_change fc.1, fc.2)
  | DeferredHandleChange => handleChange config innerText fc
  end.

(** The oldest pending timer fires (all timers have delay 0). *)
Definition fire_timer (config : RichInputConfig) (innerText : option (list N))
    (fc : EditableField * Component) : EditableField * Component :=
  match timers fc.1 with
  | [] => fc
  | t :: ts => run_timer config innerText t (set_timers ts fc.1, fc.2)
  end.

(** The [MutationObserver] callback:
    [if (!isProgrammaticChange) handleChange()]. *)
Definition observer_callback (config : RichInputConfig) (innerText : option (list N))
    (fc : EditableField * Component) : EditableField * Component :=
  if negb (isProgrammaticChange fc.1) then handleChange config innerText fc else fc.

(** *** The painted region of a free-text field

    What [resetInputFieldsDOM] and the first lines of [handleEditableField]
    read and write of an [.editable-field] element: its [data-field-key]
    and [data-has-content] attributes, the child nodes of its [.input]
    span ([None] when [querySelector('.input')] finds none) and whether it
    has a [.placeholder] span. *)
Record FieldElement := {
  fe_data_field_key : option (list N);
  fe_input : option (list Node);
  fe_has_placeholder : bool;
  fe_data_has_content : option bool;
}.



(** The document around a clicked field element. *)
Record FieldSurroundings := {
  sur_hasParent : bool;
  sur_previousSiblings : list Node;
  sur_nextSiblings : list Node;
  sur_smartInput_mounted : bool;
  sur_timers : list Timer;
}.

(** [handleEditableField] on a clicked field element (which is in the
    document): nothing when one of the two spans is missing; otherwise the
    input span is made to start with a text node, the caret is put at the
    end of that text node, the closure is set up with the flag down, and
    [handleChange] runs once. *)
Definition handleEditableField (config : RichInputConfig)
    (innerText : option (list N)) (target : FieldElement)
    (around : FieldSurroundings) (c : Component)
  : option (EditableField * Component) :=
  match fe_input target, fe_has_placeholder target with
  | Some childNodes, true =>
      let childNodes1 :=
        match childNodes with
        | TextNode _ :: _ => childNodes
        | _ => [TextNode []]
        end in
      let len :=
        match childNodes1 with
        | TextNode d :: _ => length d
        | _ => 0
        end in
      Some (handleChange config innerText
              ({| isProgrammaticChange := false;
                  inputSpan := childNodes1;
                  inputSpan_isConnected := true;
                  createdSpans := [];
                  data_has_content := fe_data_has_content target;
                  data_field_key := fe_data_field_key target;
                  hasParent := sur_hasParent around;
                  previousSiblings := sur_previousSiblings around;
                  nextSiblings := sur_nextSiblings around;
                  smartInput_mounted := sur_smartInput_mounted around;
                  selection := Some (Collapsed (InInputSpan [0]) (Nat.max len 0));
                  timers := sur_timers around;
                  defaultPrevented := false |}, c))
  | _, _ => None
  end.

(** *** Configurations used in examples *)

Definition two_selects_config : RichInputConfig :=
  {| template := js "{a}{b}";
     fields := {[ js "a" := SelectField [js "1"; js "2"] (Some (js "1"));
                  js "b" := SelectField [js "x"] None ]} |}.

Definition two_selects_open_a : Component :=
  handleDropdownClick two_selects_config 1
    (initial_component
       {[ 1 := {| el_textContent := js "1"; el_data_value := js "1";
                  el_data_field_key := Some (js "a") |};
          2 := {| el_textContent := js "[b]"; el_data_value := js "[b]";
                  el_data_field_key := Some (js "b") |} ]}).

(** A clicked element near the right edge of its container. *)
Definition narrow_layout : Layout :=
  {| targetRect := {| rect_left := 250; rect_top := 10;
                      rect_width := 40; rect_height := 20 |};
     container := Some {| containerRect := {| rect_left := 0; rect_top := 0;
                                              rect_width := 300; rect_height := 200 |};
                          scrollLeft := 0; scrollTop := 0; clientWidth := 300 |};
     dropdownMenu := Some {| dropdownRect := {| rect_left := 250; rect_top := 34;
                                                rect_width := 120; rect_height := 60 |};
                             offsetWidth := 120 |} |}.

(** A field in which the user typed [ Ann ] after the marker. *)
Definition typed_field : EditableField :=
  {| isProgrammaticChange := false;
     inputSpan := [TextNode (ZWSP :: js " Ann ")];
     inputSpan_isConnected := true;
     createdSpans := [];
     data_has_content := Some false;
     data_field_key := Some (js "name");
     hasParent := true;
     previousSiblings := [TextNode (js "Hi ")];
     nextSiblings := [TextNode (js "!")];
     smartInput_mounted := true;
     selection := Some (Collapsed (InInputSpan [0]) 5);
     timers := [];
     defaultPrevented := false |}.



Definition plain_surroundings : FieldSurroundings :=
  {| sur_hasParent := true;
     sur_previousSiblings := [TextNode (js "Hi ")];
     sur_nextSiblings := [TextNode (js "!")];
     sur_smartInput_mounted := true;
     sur_timers := [] |}.


(** * Properties *)

(** ** The pattern matcher agrees with the declarative reading *)

Lemma key_run_Some s k :
  key_run s = Some k → ∃ r, s = k ++ RBRACE :: r ∧ RBRACE ∉ k.
Proof.
  revert k. induction s as [|c s IH]; intros k; simpl; [done|].
  destruct (N.eqb_spec c RBRACE) as [->|Hc].
  - intros [= <-]. exists s. split; [done|]. apply not_elem_of_nil.
  - destruct (key_run s) as [k'|] eqn:E; [|done].
    intros [= <-]. destruct (IH k' eq_refl) as (r & -> & Hk').
    exists r. split; [done|]. rewrite not_elem_of_cons. auto.
Qed.

Lemma key_run_complete k r :
  RBRACE ∉ k → key_run (k ++ RBRACE :: r) = Some k.
Proof.
  induction k as [|c k IH]; simpl; intros Hk.
  - reflexivity.
  - apply not_elem_of_cons in Hk as [Hc Hk].
    destruct (N.eqb_spec c RBRACE) as [->|_]; [done|].
    by rewrite IH.
Qed.

Lemma match_here_Some s k :
  match_here s = Some k → ∃ r, s = LBRACE :: k ++ RBRACE :: r ∧ valid_key k.
Proof.
  destruct s as [|c s]; simpl; [done|].
  destruct (N.eqb_spec c LBRACE) as [->|]; [|done].
  destruct (key_run s) as [[|a k']|] eqn:E; [done| |done].
  intros [= <-]. destruct (key_run_Some _ _ E) as (r & -> & Hk).
  exists r. split; [done|]. by split.
Qed.

Lemma match_here_complete k r :
  valid_key k → match_here (LBRACE :: k ++ RBRACE :: r) = Some k.
Proof.
  intros [Hne Hk]. simpl. rewrite key_run_complete by done.
  by destruct k.
Qed.

Lemma match_here_occurs s n k :
  match_here (drop n s) = Some k ↔ occurs_at s n k.
Proof.
  split.
  - intros H. destruct (match_here_Some _ _ H) as (r & E & Hk). by exists r.
  - intros (r & -> & Hk). by apply match_here_complete.
Qed.

Lemma search_Some s i m :
  search s i = Some m →
  ∃ p r, s = p ++ LBRACE :: group1 m ++ RBRACE :: r
         ∧ index m = i + length p
         ∧ valid_key (group1 m)
         ∧ ∀ n k, n < length p → ¬ occurs_at s n k.
Proof.
  revert i. induction s as [|c s IH]; intros i; cbn [search]; [done|].
  destruct (match_here (c :: s)) as [k|] eqn:E.
  - intros Hm. injection Hm as <-. cbn [index group1].
    destruct (match_here_Some _ _ E) as (r & Es & Hk).
    exists [], r. simpl. repeat split; [done|lia|apply Hk|apply Hk|].
    intros n k' Hn. lia.
  - intros H. destruct (IH _ H) as (p & r & -> & Hi & Hk & Hleft).
    exists (c :: p), r. simpl. repeat split; [lia|apply Hk|apply Hk|].
    intros [|n] k' Hn Hocc.
    + apply (match_here_occurs (c :: _) 0) in Hocc. cbn [drop] in Hocc. congruence.
    + apply (Hleft n k'); [lia|]. destruct Hocc as (r' & Hd & Hk'). by exists r'.
Qed.

Lemma search_None s i :
  search s i = None → ∀ n k, ¬ occurs_at s n k.
Proof.
  revert i. induction s as [|c s IH]; intros i; cbn [search].
  - intros _ n k (r & Hd & _). by rewrite drop_nil in Hd.
  - destruct (match_here (c :: s)) as [k|] eqn:E; [done|].
    intros H [|n] k Hocc.
    + apply (match_here_occurs (c :: s) 0) in Hocc. cbn [drop] in Hocc. congruence.
    + apply (IH _ H n k). destruct Hocc as (r' & Hd & Hk'). by exists r'.
Qed.

Lemma search_complete p k r i :
  valid_key k →
  (∀ n k', n < length p → ¬ occurs_at (p ++ LBRACE :: k ++ RBRACE :: r) n k') →
  search (p ++ LBRACE :: k ++ RBRACE :: r) i
  = Some {| index := i + length p; group1 := k |}.
Proof.
  intros Hk. revert i. induction p as [|c p IH]; intros i Hleft.
  - cbn [app search]. rewrite match_here_complete by done.
    simpl. do 2 f_equal. lia.
  - cbn [app search].
    destruct (match_here (c :: p ++ LBRACE :: k ++ RBRACE :: r)) as [k'|] eqn:E.
    + exfalso. apply (Hleft 0 k'); [simpl; lia|].
      by apply (match_here_occurs (c :: _) 0).
    + rewrite IH.
      * simpl. do 2 f_equal. lia.
      * intros n k' Hn (r' & Hd & Hk'). apply (Hleft (S n) k'); [simpl; lia|].
        by exists r'.
Qed.

Lemma search_absent s i :
  (∀ n k, ¬ occurs_at s n k) → search s i = None.
Proof.
  intros Hno. destruct (search s i) as [m|] eqn:E; [|done].
  destruct (search_Some _ _ _ E) as (p & r & Hs & _ & Hk & _).
  exfalso. apply (Hno (length p) (group1 m)). exists r. split; [|done].
  by rewrite Hs, drop_app_length.
Qed.

Lemma exec_placeholder t l lit k rest :
  drop l t = lit ++ LBRACE :: k ++ RBRACE :: rest →
  valid_key k →
  (∀ n k', n < length lit → ¬ occurs_at (lit ++ LBRACE :: k ++ RBRACE :: rest) n k') →
  exec t l = (Some {| index := l + length lit; group1 := k |},
              l + length lit + (length k + 2)).
Proof.
  intros Hd Hk Hleft. unfold exec.
  rewrite Hd, (search_complete lit k rest l Hk Hleft). reflexivity.
Qed.

Lemma exec_absent t l :
  (∀ n k, ¬ occurs_at (drop l t) n k) → exec t l = (None, 0).
Proof. intros Hno. unfold exec. by rewrite (search_absent _ l Hno). Qed.

Lemma slice_literal t l lit suffix :
  drop l t = lit ++ suffix → slice t l (l + length lit) = lit.
Proof.
  intros Hd. unfold slice. rewrite Hd.
  replace (l + length lit - l) with (length lit) by lia.
  by rewrite take_app_length.
Qed.

Lemma drop_past_placeholder t l lit k rest :
  drop l t = lit ++ LBRACE :: k ++ RBRACE :: rest →
  drop (l + length lit + (length k + 2)) t = rest.
Proof.
  intros Hd. rewrite <- Nat.add_assoc, <- drop_drop, Hd.
  rewrite <- drop_drop, drop_app_length.
  replace (length k + 2) with (S (length k + 1)) by lia. cbn [drop].
  rewrite <- drop_drop, drop_app_length. reflexivity.
Qed.

Lemma literal_segment_nonempty_test (l : nat) (lit : list N) acc :
  (if l <? l + length lit then acc ++ [text_segment lit] else acc)
  = acc ++ literal_segment lit.
Proof.
  destruct lit as [|c lit]; simpl.
  - rewrite Nat.add_0_r, Nat.ltb_irrefl. by rewrite app_nil_r.
  - destruct (Nat.ltb_spec l (l + S (length lit))); [done|lia].
Qed.

(** The loop of [templateSegments], started anywhere in the template with
    enough fuel for what remains, pushes exactly the segments of the
    remaining placeholders. *)
Lemma templateSegments_loop_spec config fieldValues s parts tail :
  Placeholders s parts tail →
  ∀ fuel l acc,
    drop l (template config) = s →
    length s < fuel →
    templateSegments_loop config fieldValues fuel l acc
    = acc ++ segments_of config fieldValues parts tail.
Proof.
  induction 1 as [t Hno|lit k rest parts tail Hk Hleft Hrest IH];
    intros fuel l acc Hd Hfuel; (destruct fuel as [|fuel]; [lia|]);
    cbn [templateSegments_loop].
  - rewrite exec_absent by (by rewrite Hd).
    unfold segments_of, slice_from. cbn [map concat app]. rewrite Hd.
    destruct t as [|c t]; simpl.
    + apply (f_equal length) in Hd. rewrite length_drop in Hd. simpl in Hd.
      destruct (Nat.ltb_spec l (length (template config))); [lia|].
      by rewrite app_nil_r.
    + apply (f_equal length) in Hd. rewrite length_drop in Hd. simpl in Hd.
      destruct (Nat.ltb_spec l (length (template config))); [done|lia].
  - rewrite (exec_placeholder _ _ _ _ _ Hd Hk Hleft). cbn [index group1].
    rewrite (slice_literal _ _ _ _ Hd), literal_segment_nonempty_test.
    unfold segments_of. cbn [map concat fst snd].
    rewrite <- !app_assoc. fold (segments_of config fieldValues parts tail).
    rewrite (app_assoc acc), (app_assoc (acc ++ _)).
    rewrite <- (IH fuel (l + length lit + (length k + 2))).
    + unfold field_segment. destruct (fields config !! k); [done|].
      by rewrite app_nil_r.
    + by apply (drop_past_placeholder _ _ _ _ _ Hd).
    + rewrite !length_app in Hfuel. simpl in Hfuel.
      rewrite length_app in Hfuel. simpl in Hfuel. lia.
Qed.

Lemma replace_loop_spec t replacer s parts tail :
  Placeholders s parts tail →
  ∀ fuel l acc,
    drop l t = s →
    length s < fuel →
    replace_loop fuel t l replacer acc = acc ++ substitute replacer parts tail.
Proof.
  induction 1 as [s Hno|lit k rest parts tail Hk Hleft Hrest IH];
    intros fuel l acc Hd Hfuel; (destruct fuel as [|fuel]; [lia|]);
    cbn [replace_loop].
  - rewrite exec_absent by (by rewrite Hd).
    unfold substitute, slice_from. cbn [map concat app]. by rewrite Hd.
  - rewrite (exec_placeholder _ _ _ _ _ Hd Hk Hleft). cbn [index group1].
    rewrite (slice_literal _ _ _ _ Hd).
    rewrite (IH fuel (l + length lit + (length k + 2))).
    + unfold substitute. cbn [map concat fst snd]. by rewrite <- !app_assoc.
    + by apply (drop_past_placeholder _ _ _ _ _ Hd).
    + rewrite !length_app in Hfuel. simpl in Hfuel.
      rewrite length_app in Hfuel. simpl in Hfuel. lia.
Qed.

(** The parser, characterised: for the placeholder structure of the
    template, the segments are the literal texts and the fields of the known
    keys, in order. *)
Lemma templateSegments_spec config fieldValues parts tail :
  Placeholders (template config) parts tail →
  templateSegments config fieldValues = segments_of config fieldValues parts tail.
Proof.
  intros Hp. unfold templateSegments.
  rewrite (templateSegments_loop_spec _ _ _ _ _ Hp _ 0 []); [done|done|lia].
Qed.

Lemma replace_spec t replacer parts tail :
  Placeholders t parts tail →
  replace t replacer = substitute replacer parts tail.
Proof.
  intros Hp. unfold replace.
  rewrite (replace_loop_spec _ _ _ _ _ Hp _ 0 []); [done|done|lia].
Qed.

(** Every template has a placeholder structure, computed by
    [split_placeholders]. *)
Lemma split_placeholders_spec fuel s :
  length s < fuel →
  Placeholders s (split_placeholders fuel s).1 (split_placeholders fuel s).2.
Proof.
  revert s. induction fuel as [|fuel IH]; intros s Hfuel; [lia|].
  cbn [split_placeholders].
  destruct (search s 0) as [m|] eqn:E.
  - destruct (search_Some _ _ _ E) as (p & r & Hs & Hi & Hk & Hleft).
    simpl in Hi. rewrite Hi.
    assert (Hr : drop (length p + (length (group1 m) + 2)) s = r).
    { apply (drop_past_placeholder s 0 p (group1 m) r). by rewrite drop_0. }
    rewrite Hr.
    assert (Hp : take (length p) s = p) by (by rewrite Hs, take_app_length).
    rewrite Hp.
    specialize (IH r).
    destruct (split_placeholders fuel r) as [parts tail] eqn:Er. simpl.
    rewrite Hs at 1. constructor; [done|by rewrite <- Hs|].
    apply IH. rewrite Hs in Hfuel. rewrite !length_app in Hfuel.
    simpl in Hfuel. rewrite length_app in Hfuel. simpl in Hfuel. lia.
  - simpl. constructor. by apply (search_None _ 0).
Qed.

Lemma Placeholders_total s :
  ∃ parts tail, Placeholders s parts tail.
Proof.
  eexists _, _. apply (split_placeholders_spec (S (length s))). lia.
Qed.

(** The placeholder structure of a template is unique: it is the one
    [split_placeholders] computes. *)
Lemma split_placeholders_complete s parts tail :
  Placeholders s parts tail →
  ∀ fuel, length s < fuel → split_placeholders fuel s = (parts, tail).
Proof.
  induction 1 as [t Hno|lit k rest parts tail Hk Hleft Hrest IH];
    intros fuel Hfuel; (destruct fuel as [|fuel]; [lia|]);
    cbn [split_placeholders].
  - by rewrite (search_absent _ 0 Hno).
  - rewrite (search_complete lit k rest 0 Hk Hleft). cbn [index group1].
    rewrite (drop_past_placeholder _ 0 lit k rest (drop_0 _)).
    cbn [Nat.add]. rewrite take_app_length, IH; [done|].
    rewrite !length_app in Hfuel. simpl in Hfuel.
    rewrite length_app in Hfuel. simpl in Hfuel. lia.
Qed.

Lemma Placeholders_unique s parts1 tail1 parts2 tail2 :
  Placeholders s parts1 tail1 → Placeholders s parts2 tail2 →
  parts1 = parts2 ∧ tail1 = tail2.
Proof.
  intros H1 H2.
  pose proof (split_placeholders_complete _ _ _ H1 (S (length s)) ltac:(lia)) as E1.
  pose proof (split_placeholders_complete _ _ _ H2 (S (length s)) ltac:(lia)) as E2.
  rewrite E1 in E2. by injection E2.
Qed.

Lemma Placeholders_of_split s parts tail :
  split_placeholders (S (length s)) s = (parts, tail) →
  Placeholders s parts tail.
Proof.
  intros E. pose proof (split_placeholders_spec (S (length s)) s) as H.
  rewrite E in H. apply H. lia.
Qed.

(** ** Properties of the template parser *)

Lemma substitute_cons value lit k parts tail :
  substitute value ((lit, k) :: parts) tail
  = lit ++ value k ++ substitute value parts tail.
Proof. unfold substitute. cbn [map concat fst snd]. by rewrite <- !app_assoc. Qed.

Lemma segments_of_cons config fv lit k parts tail :
  segments_of config fv ((lit, k) :: parts) tail
  = literal_segment lit ++ field_segment config fv k
    ++ segments_of config fv parts tail.
Proof. unfold segments_of. cbn [map concat fst snd]. by rewrite <- !app_assoc. Qed.

Lemma literal_segment_content lit :
  concat (map content (literal_segment lit)) = lit.
Proof. destruct lit; [done|]. simpl. by rewrite app_nil_r. Qed.

(** The parser's [||] chain takes the stored value when it is a non-empty
    string, else the default when it is one, else the bracketed key. *)
Lemma resolve_or_nonempty_string stored dflt k :
  resolve_or stored dflt k
  = from_option id
      (from_option id ([91%N] ++ k ++ [93%N]) (nonempty_string dflt))
      (nonempty_string stored).
Proof. by destruct stored as [[|c v]|], dflt as [[|c' d]|]. Qed.

Lemma field_segment_content config fv k :
  concat (map content (field_segment config fv k)) = resolvedContent config fv k.
Proof.
  unfold field_segment, resolvedContent.
  destruct (fields config !! k); [|done]. cbn [map concat content].
  by rewrite app_nil_r, resolve_or_nonempty_string.
Qed.

(** Concatenating the contents of the segments substitutes the resolved
    contents; an unknown key resolves to nothing. *)
Lemma segments_of_content config fv parts tail :
  concat (map content (segments_of config fv parts tail))
  = substitute (resolvedContent config fv) parts tail.
Proof.
  induction parts as [|[lit k] parts IH].
  - unfold segments_of, substitute. simpl. apply literal_segment_content.
  - rewrite segments_of_cons, substitute_cons, !map_app, !concat_app.
    by rewrite literal_segment_content, field_segment_content, IH.
Qed.

Lemma substitute_ext value1 value2 parts tail :
  Forall (λ p : list N * list N, value1 p.2 = value2 p.2) parts →
  substitute value1 parts tail = substitute value2 parts tail.
Proof.
  induction 1 as [|[lit k] parts Hk _ IH]; [done|].
  rewrite !substitute_cons. simpl in Hk. by rewrite Hk, IH.
Qed.

Lemma segment_keys_app s1 s2 :
  segment_keys (s1 ++ s2) = segment_keys s1 ++ segment_keys s2.
Proof. apply omap_app. Qed.

Lemma segment_keys_literal lit : segment_keys (literal_segment lit) = [].
Proof. by destruct lit. Qed.

Lemma segment_keys_of config fv parts tail :
  known_keys config parts →
  segment_keys (segments_of config fv parts tail) = map snd parts.
Proof.
  induction 1 as [|[lit k] parts [f Hf] _ IH].
  - unfold segments_of. simpl. apply segment_keys_literal.
  - rewrite segments_of_cons, !segment_keys_app, segment_keys_literal, IH.
    unfold field_segment. simpl in Hf. by rewrite Hf.
Qed.

Lemma segment_texts_app s1 s2 :
  segment_texts (s1 ++ s2) = segment_texts s1 ++ segment_texts s2.
Proof. apply omap_app. Qed.

Lemma segment_texts_literal lit :
  segment_texts (literal_segment lit) = nonempty_literals [lit].
Proof. by destruct lit. Qed.

Lemma nonempty_literals_cons lit lits :
  nonempty_literals (lit :: lits) = nonempty_literals [lit] ++ nonempty_literals lits.
Proof. unfold nonempty_literals. cbn [List.filter]. by destruct lit. Qed.

Lemma segment_texts_of config fv parts tail :
  segment_texts (segments_of config fv parts tail)
  = nonempty_literals (map fst parts ++ [tail]).
Proof.
  induction parts as [|[lit k] parts IH].
  - unfold segments_of. simpl. apply segment_texts_literal.
  - rewrite segments_of_cons, !segment_texts_app, segment_texts_literal, IH.
    cbn [map fst app].
    rewrite (nonempty_literals_cons lit (map fst parts ++ [tail])).
    f_equal. unfold field_segment. by destruct (fields config !! k).
Qed.

Lemma elem_of_segments_of config fv parts tail seg :
  seg ∈ segments_of config fv parts tail →
  type seg = TEXT ∨ ∃ p, p ∈ parts ∧ seg ∈ field_segment config fv p.2.
Proof.
  induction parts as [|[lit k] parts IH].
  - unfold segments_of. simpl. destruct tail; simpl.
    + by intros ?%elem_of_nil.
    + intros ->%list_elem_of_singleton. by left.
  - rewrite segments_of_cons, !elem_of_app. intros [H|[H|H]].
    + left. destruct lit; simpl in H; [by apply elem_of_nil in H|].
      by apply list_elem_of_singleton in H as ->.
    + right. exists (lit, k). split; [left|done].
    + destruct (IH H) as [?|(p & Hp & Hs)]; [by left|].
      right. exists p. split; [by right|done].
Qed.

(** C1. A placeholder whose key is not in the field mapping leaves
    nothing in the parsed segments: the template [{unknownKey}] with no
    fields parses to no segment at all, and in [Hi {nme}!] the two pieces of
    literal text stay separate segments without the braces and the key,
    while [getCurrentText] on the same input keeps [{unknownKey}]. *)
Theorem unknown_key_is_dropped :
  templateSegments {| template := js "{unknownKey}"; fields := ∅ |} ∅ = []
  ∧ templateSegments {| template := js "Hi {nme}!"; fields := ∅ |} ∅
    = [text_segment (js "Hi "); text_segment (js "!")]
  ∧ getCurrentText {| template := js "{unknownKey}"; fields := ∅ |} ∅
    = js "{unknownKey}".
Proof. repeat split; vm_compute; reflexivity. Qed.

(** In general the contents of the segments skip every placeholder whose
    key is unknown. *)
Lemma unknown_keys_leave_no_trace config fv parts tail :
  Placeholders (template config) parts tail →
  Forall (λ p, fields config !! p.2 = None) parts →
  concat (map content (templateSegments config fv))
  = concat (map fst parts) ++ tail.
Proof.
  intros Hp Hunknown.
  rewrite (templateSegments_spec _ _ _ _ Hp), segments_of_content.
  clear Hp. induction Hunknown as [|[lit k] parts Hk _ IH]; [done|].
  rewrite substitute_cons. cbn [map concat fst]. rewrite IH.
  unfold resolvedContent. simpl in Hk. rewrite Hk. by rewrite <- app_assoc.
Qed.

(** C2 (as stated, refuted). With the empty string stored for a key whose
    field has a default, the field segment shows the default, not the
    stored value. *)
Lemma stored_empty_string_is_skipped :
  ¬ (∀ config fv seg k v,
        seg ∈ templateSegments config fv →
        fieldKey seg = Some k →
        inherited k = false →
        fv !! k = Some v →
        content seg = v).
Proof.
  intros H.
  pose (config := {| template := js "{k}";
                     fields := {[ js "k" := InputField (js "name") (Some (js "A")) ]} |}).
  pose (fv := ({[ js "k" := [] ]} : gmap (list N) (list N))).
  assert (Hseg : templateSegments config fv
                 = [{| type := FIELD; content := js "A";
                       fieldKey := Some (js "k");
                       fieldConfig := Some (InputField (js "name") (Some (js "A"))) |}])
    by (vm_compute; reflexivity).
  specialize (H config fv _ (js "k") [] ltac:(rewrite Hseg; left) eq_refl
                ltac:(vm_compute; reflexivity) ltac:(vm_compute; reflexivity)).
  discriminate H.
Qed.

(** C2 (amended). Every field segment the parser produces for a key that
    is not the name of a member of [Object.prototype] carries the definition
    the field mapping has for that key, and its content is the stored value
    when one is stored and it is not the empty string; otherwise the
    default when the definition has one and it is not the empty string;
    otherwise the key in square brackets. *)
Theorem field_segment_resolution config fv seg k :
  seg ∈ templateSegments config fv →
  type seg = FIELD →
  fieldKey seg = Some k →
  inherited k = false →
  ∃ f,
    fieldConfig seg = Some f ∧ fields config !! k = Some f
    ∧ (∀ v, fv !! k = Some v → v ≠ [] → content seg = v)
    ∧ (fv !! k = None ∨ fv !! k = Some [] →
       ∀ d, defaultValue f = Some d → d ≠ [] → content seg = d)
    ∧ (fv !! k = None ∨ fv !! k = Some [] →
       defaultValue f = None ∨ defaultValue f = Some [] →
       content seg = bracketed k).
Proof.
  intros Hin Hty Hkey _.
  destruct (Placeholders_total (template config)) as (parts & tail & Hp).
  rewrite (templateSegments_spec _ _ _ _ Hp) in Hin.
  apply elem_of_segments_of in Hin as [Ht|(p & _ & Hs)]; [congruence|].
  unfold field_segment in Hs.
  destruct (fields config !! p.2) as [f|] eqn:Hf; [|by apply elem_of_nil in Hs].
  apply list_elem_of_singleton in Hs as ->.
  cbn [fieldKey fieldConfig content] in *. injection Hkey as <-.
  exists f. repeat split; try done.
  - intros v -> Hv. by destruct v.
  - intros [->| ->] d -> Hd; by destruct d.
  - intros [->| ->] [->| ->]; reflexivity.
Qed.

Lemma field_segment_resolution_witness :
  let config := {| template := js "{topic}";
                   fields := {[ js "topic" := SelectField [js "A"; js "B"] (Some (js "A")) ]} |} in
  let fv : gmap (list N) (list N) := {[ js "topic" := js "B" ]} in
  let seg := {| type := FIELD; content := js "B"; fieldKey := Some (js "topic");
                fieldConfig := Some (SelectField [js "A"; js "B"] (Some (js "A"))) |} in
  seg ∈ templateSegments config fv ∧ type seg = FIELD
  ∧ fieldKey seg = Some (js "topic") ∧ inherited (js "topic") = false ∧
  ∃ f,
    fieldConfig seg = Some f ∧ fields config !! js "topic" = Some f
    ∧ (∀ v, fv !! js "topic" = Some v → v ≠ [] → content seg = v)
    ∧ (fv !! js "topic" = None ∨ fv !! js "topic" = Some [] →
       ∀ d, defaultValue f = Some d → d ≠ [] → content seg = d)
    ∧ (fv !! js "topic" = None ∨ fv !! js "topic" = Some [] →
       defaultValue f = None ∨ defaultValue f = Some [] →
       content seg = bracketed (js "topic")).
Proof.
  intros config fv seg.
  assert (Hin : seg ∈ templateSegments config fv) by (vm_compute; left).
  assert (Hown : inherited (js "topic") = false) by (vm_compute; reflexivity).
  split; [exact Hin|]. split; [reflexivity|]. split; [reflexivity|].
  split; [exact Hown|].
  exact (field_segment_resolution config fv seg (js "topic") Hin eq_refl eq_refl Hown).
Defined.

(** C8 (as stated, refuted). With the resolved content of the data model
    (current store value, else definition default, else the bracketed key),
    the round trip fails when the empty string is stored for a field that
    has a default: the segments carry the default, the substitution the
    empty string. *)
Lemma round_trip_skips_stored_empty_string :
  ¬ (∀ config fv parts tail,
        Placeholders (template config) parts tail →
        known_keys config parts →
        own_keys parts →
        concat (map content (templateSegments config fv))
        = substitute (resolvedContent_nullish config fv) parts tail).
Proof.
  intros H.
  pose (config := {| template := js "{k}";
                     fields := {[ js "k" := InputField (js "name") (Some (js "A")) ]} |}).
  pose (fv := ({[ js "k" := [] ]} : gmap (list N) (list N))).
  specialize (H config fv [([], js "k")] []).
  assert (Hp : Placeholders (template config) [([], js "k")] [])
    by (apply Placeholders_of_split; vm_compute; reflexivity).
  assert (Hk : known_keys config [([], js "k")])
    by (repeat constructor; vm_compute; eexists; reflexivity).
  assert (Ho : own_keys [([], js "k")])
    by (repeat constructor; vm_compute; reflexivity).
  specialize (H Hp Hk Ho). vm_compute in H. discriminate H.
Qed.

(** C8 (amended). For a template whose placeholders all have their key in
    the field mapping, none of them the name of a member of
    [Object.prototype], the contents of the parsed segments, concatenated
    in order, are the template with every placeholder replaced by the
    resolved content of its field: the stored value when it is a non-empty
    string, else the default when it is a non-empty string, else the key
    in square brackets. No placeholder is passed through with its braces:
    every placeholder has become a field segment (the keys of the field
    segments are the keys of the placeholders, in order) and the text
    segments hold the non-empty pieces of literal text around the
    placeholders, nothing else. *)
Theorem parse_round_trip config fv parts tail :
  Placeholders (template config) parts tail →
  known_keys config parts →
  own_keys parts →
  concat (map content (templateSegments config fv))
  = substitute (resolvedContent config fv) parts tail
  ∧ segment_keys (templateSegments config fv) = map snd parts
  ∧ segment_texts (templateSegments config fv)
    = nonempty_literals (map fst parts ++ [tail]).
Proof.
  intros Hp Hknown _. rewrite (templateSegments_spec _ _ _ _ Hp). repeat split.
  - apply segments_of_content.
  - by apply segment_keys_of.
  - apply segment_texts_of.
Qed.

Lemma parse_round_trip_witness :
  let config := {| template := js "Hi {name}, {topic}{mood}!";
                   fields := {[ js "name" := InputField (js "Your name") (Some (js "Ann"));
                                js "topic" := SelectField [js "A"; js "B"] (Some (js "A"));
                                js "mood" := InputField (js "mood") (Some []) ]} |} in
  let fv : gmap (list N) (list N) := {[ js "name" := []; js "topic" := js "B" ]} in
  let parts := [(js "Hi ", js "name"); (js ", ", js "topic"); ([], js "mood")] in
  Placeholders (template config) parts (js "!") ∧ known_keys config parts
  ∧ own_keys parts ∧
  concat (map content (templateSegments config fv)) = js "Hi Ann, B[mood]!" ∧
  substitute (resolvedContent config fv) parts (js "!") = js "Hi Ann, B[mood]!" ∧
  segment_keys (templateSegments config fv) = [js "name"; js "topic"; js "mood"].
Proof.
  intros config fv parts.
  assert (Hp : Placeholders (template config) parts (js "!"))
    by (apply Placeholders_of_split; vm_compute; reflexivity).
  assert (Hk : known_keys config parts)
    by (repeat constructor; vm_compute; eexists; reflexivity).
  assert (Ho : own_keys parts)
    by (repeat constructor; vm_compute; reflexivity).
  split; [exact Hp|]. split; [exact Hk|]. split; [exact Ho|].
  destruct (parse_round_trip config fv parts (js "!") Hp Hk Ho) as (H1 & H2 & _).
  split; [rewrite H1; vm_compute; reflexivity|].
  split; [vm_compute; reflexivity|rewrite H2; reflexivity].
Defined.

(** C10 (as stated, refuted). With nothing stored for a key whose default
    is the empty string, every stored value is a non-empty string, yet
    [getCurrentText] substitutes the empty string where the segments carry
    the key in square brackets. *)
Lemma getText_differs_on_empty_default :
  ¬ (∀ config fv parts tail,
        Placeholders (template config) parts tail →
        known_keys config parts →
        (∀ k v, fv !! k = Some v → v ≠ []) →
        getCurrentText config fv
        = concat (map content (templateSegments config fv))).
Proof.
  intros H.
  pose (config := {| template := js "{a}";
                     fields := {[ js "a" := InputField (js "hint") (Some []) ]} |}).
  specialize (H config ∅ [([], js "a")] []).
  assert (Hp : Placeholders (template config) [([], js "a")] [])
    by (apply Placeholders_of_split; vm_compute; reflexivity).
  assert (Hk : known_keys config [([], js "a")])
    by (repeat constructor; vm_compute; eexists; reflexivity).
  specialize (H Hp Hk ltac:(intros k v Hkv; by rewrite lookup_empty in Hkv)).
  vm_compute in H. discriminate H.
Qed.

(** C10 (amended). When every placeholder's key is in the field mapping,
    every stored value is a non-empty string, and no placeholder key
    without a stored value has the empty string as its default, the text of
    [getCurrentText] is the in-order concatenation of the contents of the
    parsed segments. *)
Theorem getText_matches_segments config fv parts tail :
  Placeholders (template config) parts tail →
  known_keys config parts →
  (∀ k v, fv !! k = Some v → v ≠ []) →
  (∀ k f, k ∈ map snd parts → fields config !! k = Some f →
          fv !! k = None → defaultValue f ≠ Some []) →
  getCurrentText config fv
  = concat (map content (templateSegments config fv)).
Proof.
  intros Hp Hknown Hstored Hdefault.
  unfold getCurrentText.
  rewrite (replace_spec _ _ _ _ Hp), (templateSegments_spec _ _ _ _ Hp).
  rewrite segments_of_content. apply substitute_ext.
  clear Hp. induction Hknown as [|[lit k] parts [f Hf] _ IH]; constructor.
  - cbn [snd] in *. unfold resolvedContent. rewrite Hf.
    destruct (fv !! k) as [v|] eqn:Hv.
    + specialize (Hstored k v Hv). simpl. by destruct v.
    + specialize (Hdefault k f ltac:(left) Hf Hv). simpl.
      destruct (defaultValue f) as [[|d ds]|]; done.
  - apply IH. intros k' f' Hk'. apply Hdefault. by right.
Qed.

Lemma getText_matches_segments_witness :
  let config := {| template := js "Hi {name}, {topic}!";
                   fields := {[ js "name" := InputField (js "Your name") (Some (js "Ann"));
                                js "topic" := SelectField [js "A"; js "B"] (Some (js "A")) ]} |} in
  let fv : gmap (list N) (list N) := {[ js "topic" := js "B" ]} in
  let parts := [(js "Hi ", js "name"); (js ", ", js "topic")] in
  Placeholders (template config) parts (js "!") ∧ known_keys config parts ∧
  (∀ k v, fv !! k = Some v → v ≠ []) ∧
  (∀ k f, k ∈ map snd parts → fields config !! k = Some f →
          fv !! k = None → defaultValue f ≠ Some []) ∧
  getCurrentText config fv = js "Hi Ann, B!" ∧
  concat (map content (templateSegments config fv)) = js "Hi Ann, B!".
Proof.
  intros config fv parts.
  assert (Hp : Placeholders (template config) parts (js "!"))
    by (apply Placeholders_of_split; vm_compute; reflexivity).
  assert (Hk : known_keys config parts)
    by (repeat constructor; vm_compute; eexists; reflexivity).
  assert (Hs : ∀ k v, fv !! k = Some v → v ≠ []).
  { intros k v Hkv. apply lookup_singleton_Some in Hkv as [_ <-]. discriminate. }
  assert (Hd : ∀ k f, k ∈ map snd parts → fields config !! k = Some f →
                      fv !! k = None → defaultValue f ≠ Some []).
  { intros k f Hin Hf _. simpl in Hin.
    apply elem_of_cons in Hin as [->|Hin]; [|apply elem_of_cons in Hin as [->|Hin]].
    - vm_compute in Hf. injection Hf as <-. discriminate.
    - vm_compute in Hf. injection Hf as <-. discriminate.
    - by apply elem_of_nil in Hin. }
  split; [exact Hp|]. split; [exact Hk|]. split; [exact Hs|]. split; [exact Hd|].
  pose proof (getText_matches_segments config fv parts (js "!") Hp Hk Hs Hd) as H.
  split; [|rewrite <- H]; vm_compute; reflexivity.
Defined.

(** ** Properties of the dropdown controller *)



Lemma demo_open_reachable : reachable demo_config demo_open.
Proof. unfold demo_open. repeat constructor. Qed.


(** C7. After the dropdown of [topic] was opened and then closed, by a
    selection commit or by a click outside the overlay, no overlay is open
    and [getActiveFieldKey] still answers [topic], not the empty string. *)
Theorem active_key_survives_close :
  reachable demo_config (selectOption demo_config None (js "C") demo_open)
  ∧ showDropdown (selectOption demo_config None (js "C") demo_open) = false
  ∧ getActiveFieldKey (selectOption demo_config None (js "C") demo_open) = js "topic"
  ∧ reachable demo_config (handleClickOutside 0 demo_open)
  ∧ showDropdown (handleClickOutside 0 demo_open) = false
  ∧ getActiveFieldKey (handleClickOutside 0 demo_open) = js "topic"
  ∧ getActiveFieldKey (initial_component demo_elements) = [].
Proof.
  repeat split; try (vm_compute; reflexivity);
    constructor; apply demo_open_reachable.
Qed.

(** [hideDropdown] leaves [currentField] as it is. *)
Lemma hideDropdown_keeps_currentField c :
  getActiveFieldKey (hideDropdown c) = getActiveFieldKey c.
Proof. reflexivity. Qed.

(** C9. With an overlay open and the event target not inside the overlay
    element, [handleClickOutside] closes the overlay and leaves the field
    value store (and the events emitted so far) as they were; with no
    overlay open it leaves the whole state as it was. *)
Theorem click_outside_dismisses event_target c :
  (showDropdown c = true →
   (∀ overlay, dropdownMenuRef c = Some overlay → event_target ∉ overlay) →
   showDropdown (handleClickOutside event_target c) = false
   ∧ fieldValues (handleClickOutside event_target c) = fieldValues c
   ∧ emitted (handleClickOutside event_target c) = emitted c)
  ∧ (showDropdown c = false → handleClickOutside event_target c = c).
Proof.
  split.
  - intros Hshow Hout. unfold handleClickOutside. rewrite Hshow. simpl.
    destruct (dropdownMenuRef c) as [overlay|] eqn:Hov; simpl; [|done].
    rewrite bool_decide_eq_false_2 by (by apply Hout). done.
  - intros Hshow. unfold handleClickOutside. by rewrite Hshow.
Qed.

Lemma click_outside_dismisses_witness :
  let c := set_dropdownMenuRef (Some {[ 20; 21; 22 ]}) demo_open in
  (showDropdown c = true ∧
   (∀ overlay, dropdownMenuRef c = Some overlay → 7 ∉ overlay) ∧
   showDropdown (handleClickOutside 7 c) = false
   ∧ fieldValues (handleClickOutside 7 c) = fieldValues c
   ∧ emitted (handleClickOutside 7 c) = emitted c)
  ∧ (showDropdown (hideDropdown c) = false ∧
     handleClickOutside 7 (hideDropdown c) = hideDropdown c).
Proof.
  intros c.
  assert (H1 : showDropdown c = true) by (vm_compute; reflexivity).
  assert (H2 : ∀ overlay, dropdownMenuRef c = Some overlay → 7 ∉ overlay).
  { intros overlay [= <-]. apply (proj1 (bool_decide_eq_false _)).
    vm_compute. reflexivity. }
  assert (H3 : showDropdown (hideDropdown c) = false) by reflexivity.
  split.
  - split; [exact H1|]. split; [exact H2|].
    exact (proj1 (click_outside_dismisses 7 c) H1 H2).
  - split; [exact H3|].
    exact (proj2 (click_outside_dismisses 7 (hideDropdown c)) H3).
Defined.

(** ** Properties of overlay positioning *)

(** C6 (as stated, refuted). The scroll-compensating revision never moves
    the overlay above the clicked element: with the element at 70..90 in a
    container of height 100 and an overlay of height 50, the top stays at
    94. *)
Lemma scroll_positioning_stays_below :
  ¬ flips_above ScrollPositioning.position.
Proof.
  intros H.
  pose (cont := {| containerRect := {| rect_left := 0; rect_top := 0;
                                        rect_width := 300; rect_height := 100 |};
                   scrollLeft := 0; scrollTop := 0; clientWidth := 300 |}).
  pose (menu := {| dropdownRect := {| rect_left := 10; rect_top := 94;
                                       rect_width := 80; rect_height := 50 |};
                   offsetWidth := 80 |}).
  pose (l := {| targetRect := {| rect_left := 10; rect_top := 70;
                                  rect_width := 40; rect_height := 20 |};
                container := Some cont; dropdownMenu := Some menu |}).
  specialize (H l {| css_top := 0; css_left := 0 |} cont menu eq_refl eq_refl).
  vm_compute in H. specialize (H eq_refl). discriminate H.
Qed.

(** C6 (amended). In the revision that measures the overlay with
    [getBoundingClientRect], an overlay whose bottom edge would pass the
    container's bottom edge is anchored above the clicked element, the gap
    of 4 kept, with its top floored at the container's top edge (never
    negative). In the scroll-compensating revision the overlay always stays
    below the clicked element. *)
Theorem overlay_vertical_placement l style cont menu :
  container l = Some cont →
  dropdownMenu l = Some menu →
  overflow_below l cont menu →
  css_top (RectPositioning.position l style) = anchored_above l cont menu
  ∧ (0 ≤ css_top (RectPositioning.position l style))%Z
  ∧ css_top (ScrollPositioning.position l style)
    = (rect_bottom (targetRect l) - rect_top (containerRect cont)
       + scrollTop cont + 4)%Z.
Proof.
  intros Hc Hm Hover. unfold overflow_below in Hover.
  unfold RectPositioning.position, ScrollPositioning.position, anchored_above.
  rewrite Hc, Hm. cbn zeta.
  destruct (Z.ltb_spec (rect_height (containerRect cont))
              (rect_bottom (targetRect l) - rect_top (containerRect cont) + 4
               + rect_height (dropdownRect menu))) as [_|Hge]; [|lia].
  cbn [css_top]. split; [f_equal; lia|]. split; [lia|].
  by destruct (_ <? _)%Z.
Qed.

Lemma overlay_vertical_placement_witness :
  let cont := {| containerRect := {| rect_left := 0; rect_top := 0;
                                      rect_width := 300; rect_height := 100 |};
                 scrollLeft := 0; scrollTop := 0; clientWidth := 300 |} in
  let menu := {| dropdownRect := {| rect_left := 10; rect_top := 94;
                                     rect_width := 80; rect_height := 50 |};
                 offsetWidth := 80 |} in
  let l := {| targetRect := {| rect_left := 10; rect_top := 70;
                                rect_width := 40; rect_height := 20 |};
              container := Some cont; dropdownMenu := Some menu |} in
  let style := {| css_top := 0; css_left := 0 |} in
  overflow_below l cont menu
  ∧ css_top (RectPositioning.position l style) = 16%Z
  ∧ css_top (ScrollPositioning.position l style) = 94%Z.
Proof.
  intros cont menu l style.
  assert (Hover : overflow_below l cont menu) by (vm_compute; reflexivity).
  split; [exact Hover|].
  destruct (overlay_vertical_placement l style cont menu eq_refl eq_refl Hover)
    as (H1 & _ & H3).
  split; [rewrite H1|rewrite H3]; vm_compute; reflexivity.
Defined.

(** ** Properties of the editable-field controller *)

Lemma created_span_lookup (spans : list (list Node)) (cs cs' : list Node) :
  default [] (<[length spans := cs']> (spans ++ [cs]) !! length spans) = cs'.
Proof.
  rewrite list_lookup_insert_eq; [done|]. rewrite length_app. simpl. lia.
Qed.

(** A run of [handleChange] while the flag is raised changes nothing. *)
Lemma handleChange_suppressed config innerText f c :
  isProgrammaticChange f = true →
  handleChange config innerText (f, c) = (f, c).
Proof. intros H. unfold handleChange. cbn [fst]. by rewrite H. Qed.

(** C3 (as stated, refuted). While the loop-suppression flag is raised the
    handler returns at once: a field holding a marker followed by a space
    (empty once stripped and trimmed) keeps both code units. *)
Lemma suppressed_change_keeps_content :
  ¬ (∀ config innerText f c,
        trim (strip_markers
                (span_textContent (ensureInputElement f).2 (ensureInputElement f).1)) = [] →
        span_textContent (handleChange config innerText (f, c)).1
                         (ensureInputElement f).1 = [ZWSP]).
Proof.
  intros H.
  pose (f := {| isProgrammaticChange := true;
                inputSpan := [TextNode [ZWSP; 32%N]];
                inputSpan_isConnected := true;
                createdSpans := [];
                data_has_content := Some false;
                data_field_key := Some (js "name");
                hasParent := true;
                previousSiblings := [TextNode (js "Hi ")];
                nextSiblings := [TextNode (js "!")];
                smartInput_mounted := true;
                selection := None;
                timers := [ClearProgrammaticChange];
                defaultPrevented := false |}).
  specialize (H {| template := js "Hi {name}!"; fields := ∅ |} None f
                (initial_component ∅) ltac:(vm_compute; reflexivity)).
  vm_compute in H. discriminate H.
Qed.

(** C3 (amended). When the loop-suppression flag is not raised and the text
    of the field's input span, markers stripped, trims to the empty string,
    then after [handleChange] the span holds exactly one text node with one
    zero-width marker: its text is one code unit, it is empty once the
    markers are stripped, the field is marked as having no content and the
    flag is raised. *)
Theorem empty_field_keeps_marker config innerText f c :
  isProgrammaticChange f = false →
  trim (strip_markers
          (span_textContent (ensureInputElement f).2 (ensureInputElement f).1)) = [] →
  span_childNodes (handleChange config innerText (f, c)).1 (ensureInputElement f).1
  = [TextNode [ZWSP]]
  ∧ span_textContent (handleChange config innerText (f, c)).1
                     (ensureInputElement f).1 = [ZWSP]
  ∧ strip_markers (span_textContent (handleChange config innerText (f, c)).1
                                    (ensureInputElement f).1) = []
  ∧ data_has_content (handleChange config innerText (f, c)).1 = Some false
  ∧ isProgrammaticChange (handleChange config innerText (f, c)).1 = true.
Proof.
  intros Hflag Hempty. unfold handleChange. cbn [fst snd]. rewrite Hflag.
  destruct (ensureInputElement f) as [currentSpan f1] eqn:Hens.
  cbn [fst snd] in Hempty. rewrite Hempty. cbn [is_empty_string negb].
  assert (Hspan : span_childNodes
                    (set_has_content false (insert_marker currentSpan f1)) currentSpan
                  = [TextNode [ZWSP]]).
  { unfold ensureInputElement in Hens.
    destruct (inputSpan_isConnected f); injection Hens as <- <-; [done|].
    cbn. apply created_span_lookup. }
  assert (Hrest :
    span_childNodes (set_has_content false (insert_marker currentSpan f1)) currentSpan
    = [TextNode [ZWSP]]
    ∧ span_textContent (set_has_content false (insert_marker currentSpan f1)) currentSpan
      = [ZWSP]
    ∧ strip_markers (span_textContent
                       (set_has_content false (insert_marker currentSpan f1)) currentSpan)
      = []
    ∧ data_has_content (set_has_content false (insert_marker currentSpan f1)) = Some false
    ∧ isProgrammaticChange (set_has_content false (insert_marker currentSpan f1)) = true).
  { unfold span_textContent. rewrite Hspan. repeat split; reflexivity. }
  destruct (data_field_key (set_has_content false (insert_marker currentSpan f1)))
    as [[|u key]|]; exact Hrest.
Qed.

Lemma empty_field_keeps_marker_witness :
  let config := {| template := js "Hi {name}!";
                   fields := {[ js "name" := InputField (js "Your name") (Some []) ]} |} in
  let c := initial_component ∅ in
  isProgrammaticChange demo_field = false ∧
  trim (strip_markers
          (span_textContent (ensureInputElement demo_field).2
                            (ensureInputElement demo_field).1)) = [] ∧
  span_childNodes (handleChange config None (demo_field, c)).1 CapturedSpan
  = [TextNode [ZWSP]] ∧
  fieldValues (handleChange config None (demo_field, c)).2 !! js "name" = Some [].
Proof.
  intros config c.
  assert (H1 : isProgrammaticChange demo_field = false) by reflexivity.
  assert (H2 : trim (strip_markers
                 (span_textContent (ensureInputElement demo_field).2
                                   (ensureInputElement demo_field).1)) = [])
    by (vm_compute; reflexivity).
  split; [exact H1|]. split; [exact H2|].
  split; [exact (proj1 (empty_field_keeps_marker config None demo_field c H1 H2))|].
  vm_compute. reflexivity.
Defined.

(** *** Where [focusNode] puts the caret *)

(** Induction on nodes, with the property available for every child. *)
Lemma Node_children_ind (P : Node → Prop) :
  (∀ d, P (TextNode d)) →
  (∀ d, P (CommentNode d)) →
  (∀ cs, Forall P cs → P (Element cs)) →
  ∀ n, P n.
Proof.
  intros P_text P_comment P_element. fix IH 1. intros [d|d|cs].
  - apply P_text.
  - apply P_comment.
  - apply P_element. induction cs as [|c cs IHcs]; constructor.
    + apply IH.
    + apply IHcs.
Qed.

Lemma text_nodes_from_nil cs i :
  Forall (λ c, text_nodes c = []) cs → text_nodes_from text_nodes cs i = [].
Proof.
  intros H. revert i. induction H as [|c cs Hc _ IH]; intros i; [done|].
  cbn [text_nodes_from]. by rewrite Hc, IH.
Qed.

Lemma text_nodes_from_nil_inv cs i :
  text_nodes_from text_nodes cs i = [] → Forall (λ c, text_nodes c = []) cs.
Proof.
  revert i. induction cs as [|c cs IH]; intros i; [by constructor|].
  cbn [text_nodes_from]. intros [Hc Hcs]%app_eq_nil. constructor.
  - by destruct (text_nodes c).
  - by apply (IH (S i)).
Qed.

(** A node without text nodes has no text. *)
Lemma no_text_nodes_no_text n :
  text_nodes n = [] → textContent n = [].
Proof.
  induction n as [d|d|cs IH] using Node_children_ind; [done|done|].
  cbn [text_nodes textContent]. intros H%text_nodes_from_nil_inv.
  induction IH as [|c cs Hc _ IHcs]; [done|].
  apply Forall_cons in H as [H1 H2]. cbn [map concat].
  by rewrite (Hc H1), (IHcs H2).
Qed.

Lemma no_text_nodes_no_text_list cs :
  Forall (λ c, text_nodes c = []) cs → concat (map textContent cs) = [].
Proof.
  induction 1 as [|c cs Hc _ IH]; [done|].
  cbn [map concat]. by rewrite (no_text_nodes_no_text _ Hc), IH.
Qed.

(** The last text node below the children [cs] sits in some child, is the
    last text node of that child, and no later child has a text node. *)
Lemma last_text_nodes_from cs i path d :
  last (text_nodes_from text_nodes cs i) = Some (path, d) →
  ∃ j c path',
    path = (i + j) :: path' ∧ cs !! j = Some c
    ∧ last (text_nodes c) = Some (path', d)
    ∧ Forall (λ c', text_nodes c' = []) (drop (S j) cs).
Proof.
  revert i. induction cs as [|c cs IH]; intros i; [done|].
  cbn [text_nodes_from]. rewrite last_app.
  destruct (last (text_nodes_from text_nodes cs (S i))) as [pd|] eqn:E.
  - intros [= ->]. destruct (IH _ E) as (j & c' & path' & -> & Hj & Hl & Hno).
    exists (S j), c', path'. repeat split; try done. f_equal. lia.
  - intros Hl. apply last_None in E.
    rewrite (fmap_last (λ pd, (i :: pd.1, pd.2))) in Hl.
    destruct (last (text_nodes c)) as [[p' d']|] eqn:Ec; [|done].
    injection Hl as <- <-.
    exists 0, c, p'. repeat split; try done.
    + f_equal. lia.
    + cbn [drop]. by apply (text_nodes_from_nil_inv _ (S i)).
Qed.

(** The last text node of a node is a text node of that node, and put at
    its end the caret has the whole text of the node before it. *)
Lemma last_text_node_is_end n :
  ∀ path d,
    last (text_nodes n) = Some (path, d) →
    node_at n path = Some (TextNode d)
    ∧ text_before n path (length d) = textContent n.
Proof.
  induction n as [d0|d0|cs IH] using Node_children_ind; intros path d.
  - cbn [text_nodes last]. intros [= <- <-]. split; [done|].
    cbn [text_before textContent]. apply firstn_all.
  - done.
  - cbn [text_nodes]. intros Hl.
    destruct (last_text_nodes_from _ _ _ _ Hl) as (j & c & path' & -> & Hj & Hlc & Hno).
    cbn [Nat.add node_at text_before textContent]. rewrite Hj.
    rewrite Forall_forall in IH.
    destruct (IH c ltac:(by eapply list_elem_of_lookup_2) _ _ Hlc)
      as [Hat Hbefore].
    split; [done|]. rewrite Hbefore.
    rewrite <- (take_drop_middle cs j c Hj) at 2.
    rewrite map_app, concat_app. cbn [map concat].
    by rewrite (no_text_nodes_no_text_list _ Hno), app_nil_r.
Qed.

(** [focusNode] answers a node below its argument; with the caret at the
    offset the listener computes for it, the whole text of the argument
    lies before the caret, and [setStart] accepts the offset. *)
Lemma focusNode_end n path m :
  focusNode (Some n) = Some (path, m) →
  node_at n path = Some m
  ∧ text_before n path (caret_length m) = textContent n
  ∧ caret_length m ≤ node_length m.
Proof.
  destruct n as [d|d|cs]; cbn [focusNode].
  - intros [= <- <-]. cbn [node_at text_before textContent caret_length node_length].
    split; [done|]. split; [apply firstn_all|lia].
  - cbn [text_nodes last]. intros [= <- <-]. cbn. split; [done|]. split; [done|lia].
  - destruct (last (text_nodes (Element cs))) as [[p d]|] eqn:E.
    + intros [= <- <-]. destruct (last_text_node_is_end _ _ _ E) as [H1 H2].
      by cbn [caret_length node_length].
    + intros [= <- <-]. cbn [node_at text_before textContent caret_length node_length].
      split; [done|]. split; [by rewrite firstn_all|lia].
Qed.

Lemma focusNode_Some n : ∃ path m, focusNode (Some n) = Some (path, m).
Proof.
  destruct n as [d|d|cs]; cbn [focusNode]; [by eexists _, _| |].
  - cbn. by eexists _, _.
  - destruct (last (text_nodes (Element cs))) as [[p d]|]; by eexists _, _.
Qed.

Lemma setStart_caret_length node m :
  setStart node (node_length m) (Nat.max (caret_length m) 0)
  = Some (Collapsed node (caret_length m)).
Proof.
  unfold setStart. rewrite Nat.max_0_r.
  destruct (Nat.leb_spec (caret_length m) (node_length m)) as [_|H]; [done|].
  destruct m; simpl in H; lia.
Qed.

(** One closure: the event runs its listener once. *)
Lemma dispatch_single config innerText e flag f c :
  dispatch config innerText e [flag] (f, c)
  = ([isProgrammaticChange (listener config innerText e (with_flag flag f, c)).1],
     listener config innerText e (with_flag flag f, c)).
Proof. reflexivity. Qed.

(** The listener of a closure, for a delete-class key on an empty field. *)
Lemma listener_deletion config innerText key f c :
  is_delete_key key = true →
  trim (strip_markers (concat (map textContent (inputSpan f)))) = [] →
  listener config innerText (keydown key) (f, c) = (remove_field f, c).
Proof.
  intros Hkey Hempty. cbn [listener fst snd]. by rewrite Hkey, Hempty.
Qed.

(** C4 (as stated, refuted). With no preceding sibling and the text
    [abc] as following sibling, the caret is put after [abc], at offset 3,
    not at the start of the following sibling (field clicked once, so one
    listener). *)
Lemma caret_lands_at_end_of_next_sibling :
  ¬ (∀ config innerText f c key flag,
        hasParent f = true →
        is_delete_key key = true →
        trim (strip_markers (concat (map textContent (inputSpan f)))) = [] →
        previousSiblings f = [] →
        ∀ next ns, nextSiblings f = next :: ns →
        ∃ path offset,
          selection (dispatch config innerText (keydown key) [flag] (f, c)).2.1
          = Some (Collapsed (InSibling 0 path) offset)
          ∧ text_before next path offset = []).
Proof.
  intros H.
  pose (f := {| isProgrammaticChange := false;
                inputSpan := [TextNode [ZWSP]];
                inputSpan_isConnected := true;
                createdSpans := [];
                data_has_content := Some false;
                data_field_key := Some (js "name");
                hasParent := true;
                previousSiblings := [];
                nextSiblings := [TextNode (js "abc")];
                smartInput_mounted := true;
                selection := None;
                timers := [];
                defaultPrevented := false |}).
  destruct (H {| template := js "{name}abc"; fields := ∅ |} None f
              (initial_component ∅) "Backspace"%string false
              eq_refl eq_refl ltac:(vm_compute; reflexivity) eq_refl
              (TextNode (js "abc")) [] eq_refl) as (path & offset & Hsel & Hstart).
  vm_compute in Hsel. injection Hsel as <- <-.
  vm_compute in Hstart. discriminate Hstart.
Qed.

(** C4 (amended). When Backspace or Delete is pressed in a field that is in
    the document, that carries the listener of one closure (it was clicked
    once since it was painted) and whose input span, markers stripped, trims
    to the empty string, the default action is prevented, the whole field
    element leaves its parent (the other children stay as they are, the
    store and the emitted events too), and the caret goes
    - after all the text of the immediately preceding sibling, when there
      is one;
    - otherwise after all the text of the following sibling, when there is
      one;
    - otherwise into the emptied parent, at offset 0. *)
Theorem whole_field_deletion config innerText f c key flag :
  hasParent f = true →
  is_delete_key key = true →
  trim (strip_markers (concat (map textContent (inputSpan f)))) = [] →
  let after := dispatch config innerText (keydown key) [flag] (f, c) in
  let f' := after.2.1 in
  hasParent f' = false
  ∧ defaultPrevented f' = true
  ∧ previousSiblings f' = previousSiblings f
  ∧ nextSiblings f' = nextSiblings f
  ∧ after.2.2 = c
  ∧ after.1 = [flag]
  ∧ (∀ ps prev, previousSiblings f = ps ++ [prev] →
       ∃ path m,
         selection f' = Some (Collapsed (InSibling (length ps) path) (caret_length m))
         ∧ node_at prev path = Some m
         ∧ text_before prev path (caret_length m) = textContent prev)
  ∧ (previousSiblings f = [] → ∀ next ns, nextSiblings f = next :: ns →
       ∃ path m,
         selection f' = Some (Collapsed (InSibling 0 path) (caret_length m))
         ∧ node_at next path = Some m
         ∧ text_before next path (caret_length m) = textContent next)
  ∧ (previousSiblings f = [] → nextSiblings f = [] →
       selection f' = Some (Collapsed InParent 0)).
Proof.
  intros Hparent Hkey Hempty after f'. subst f' after.
  rewrite dispatch_single,
    (listener_deletion config innerText key (with_flag flag f) c Hkey Hempty).
  cbn [fst snd]. repeat split.
  - intros ps prev Hps. unfold remove_field.
    cbn [hasParent previousSiblings nextSiblings with_flag].
    rewrite Hparent, Hps, last_snoc.
    destruct (focusNode_Some prev) as (path & m & Hfocus).
    destruct (focusNode_end _ _ _ Hfocus) as (Hat & Hbefore & _).
    exists path, m. rewrite Hfocus. cbn [selection fst snd].
    rewrite setStart_caret_length, length_app. cbn [length].
    split; [|done]. do 3 f_equal. lia.
  - intros Hps next ns Hns. unfold remove_field.
    cbn [hasParent previousSiblings nextSiblings with_flag].
    rewrite Hparent, Hps, Hns.
    cbn [last head]. change (focusNode None) with (@None (list nat * Node)).
    cbn iota.
    destruct (focusNode_Some next) as (path & m & Hfocus).
    destruct (focusNode_end _ _ _ Hfocus) as (Hat & Hbefore & _).
    exists path, m. rewrite Hfocus. cbn [selection fst snd length].
    by rewrite setStart_caret_length.
  - intros Hps Hns. unfold remove_field.
    cbn [hasParent previousSiblings nextSiblings with_flag].
    rewrite Hparent, Hps, Hns. reflexivity.
Qed.

Lemma whole_field_deletion_witness :
  let config := {| template := js "Hi {name}!";
                   fields := {[ js "name" := InputField (js "Your name") (Some []) ]} |} in
  let c := initial_component ∅ in
  let f' := (dispatch config None (keydown "Delete") [false] (demo_field, c)).2.1 in
  hasParent demo_field = true ∧ is_delete_key "Delete" = true ∧
  trim (strip_markers (concat (map textContent (inputSpan demo_field)))) = [] ∧
  hasParent f' = false ∧
  selection f' = Some (Collapsed (InSibling 0 []) 3).
Proof.
  intros config c f'.
  assert (H1 : hasParent demo_field = true) by reflexivity.
  assert (H2 : is_delete_key "Delete" = true) by reflexivity.
  assert (H3 : trim (strip_markers (concat (map textContent (inputSpan demo_field)))) = [])
    by (vm_compute; reflexivity).
  split; [exact H1|]. split; [exact H2|]. split; [exact H3|].
  split; [exact (proj1 (whole_field_deletion config None demo_field c "Delete" false
                          H1 H2 H3))|].
  vm_compute. reflexivity.
Defined.

(** * Further properties *)

(** ** Parser and text *)

Lemma resolve_or_nonempty stored dflt key : resolve_or stored dflt key ≠ [].
Proof.
  unfold resolve_or, bracketed.
  destruct stored as [[|c v]|]; destruct dflt as [[|c' d]|]; done.
Qed.

Lemma segments_of_all (P : TemplateSegment → Prop) config fv parts tail :
  (∀ lit, lit ≠ [] → P (text_segment lit)) →
  (∀ k seg, seg ∈ field_segment config fv k → P seg) →
  Forall P (segments_of config fv parts tail).
Proof.
  intros Htext Hfield.
  assert (Hlit : ∀ lit, Forall P (literal_segment lit)).
  { intros [|u lit]; simpl; [constructor|]. constructor; [by apply Htext|constructor]. }
  induction parts as [|[lit k] parts IH].
  - unfold segments_of. simpl. apply Hlit.
  - rewrite segments_of_cons. apply Forall_app. split; [apply Hlit|].
    apply Forall_app. split; [|done].
    apply Forall_forall. intros seg Hseg. by apply (Hfield k).
Qed.

(** X1. No segment of a parsed template has empty content: a text segment
    holds at least one code unit of literal text and a field segment shows
    the stored value, the default or the bracketed key. *)
Theorem segments_never_empty config fv :
  Forall (λ seg, content seg ≠ []) (templateSegments config fv).
Proof.
  destruct (Placeholders_total (template config)) as (parts & tail & Hp).
  rewrite (templateSegments_spec _ _ _ _ Hp).
  apply segments_of_all.
  - intros lit Hlit. done.
  - intros k seg. unfold field_segment.
    destruct (fields config !! k) as [f|]; [|by intros ?%elem_of_nil].
    intros ->%list_elem_of_singleton. apply resolve_or_nonempty.
Qed.

Lemma no_brace_no_placeholder t :
  LBRACE ∉ t → ∀ n k, ¬ occurs_at t n k.
Proof.
  intros Hno n k (r & Hd & _). apply Hno.
  rewrite <- (take_drop n t), Hd. apply elem_of_app. right. left.
Qed.

(** X2. A template without opening brace is passed through: the parser
    yields one text segment holding the whole template (none when the
    template is empty) and [getCurrentText] returns the template. *)
Theorem braceless_template_is_literal config fv :
  LBRACE ∉ template config →
  templateSegments config fv = literal_segment (template config)
  ∧ getCurrentText config fv = template config.
Proof.
  intros Hno.
  assert (Hp : Placeholders (template config) [] (template config))
    by (constructor; by apply no_brace_no_placeholder).
  split.
  - by rewrite (templateSegments_spec _ _ _ _ Hp).
  - unfold getCurrentText. by rewrite (replace_spec _ _ _ _ Hp).
Qed.

Lemma braceless_template_is_literal_witness :
  let config := {| template := js "plain text }"; fields := ∅ |} in
  (LBRACE ∉ template config)
  ∧ templateSegments config ∅ = [text_segment (js "plain text }")]
  ∧ getCurrentText config ∅ = js "plain text }".
Proof.
  intros config.
  assert (H : LBRACE ∉ template config).
  { apply (proj1 (bool_decide_eq_false _)). vm_compute. reflexivity. }
  split; [exact H|].
  exact (braceless_template_is_literal config ∅ H).
Defined.

Lemma field_segment_shape config fv1 fv2 k :
  map segment_shape (field_segment config fv1 k)
  = map segment_shape (field_segment config fv2 k).
Proof. unfold field_segment. by destruct (fields config !! k). Qed.

(** X3. The stored values never change the structure of the parsed
    template: for any two stores the segments have the same types, keys and
    field definitions, in the same order, and the same literal texts; only
    the contents of field segments can differ. *)
Theorem segments_shape_independent_of_store config fv1 fv2 :
  map segment_shape (templateSegments config fv1)
  = map segment_shape (templateSegments config fv2).
Proof.
  destruct (Placeholders_total (template config)) as (parts & tail & Hp).
  rewrite !(templateSegments_spec _ _ _ _ Hp). clear Hp.
  induction parts as [|[lit k] parts IH]; [done|].
  rewrite !segments_of_cons, !map_app.
  by rewrite (field_segment_shape config fv1 fv2), IH.
Qed.

(** Putting every key back between its braces gives the template back. *)
Lemma substitute_braces t parts tail :
  Placeholders t parts tail →
  substitute (λ k, LBRACE :: k ++ [RBRACE]) parts tail = t.
Proof.
  induction 1 as [t _|lit k rest parts tail _ _ _ IH]; [done|].
  rewrite substitute_cons, IH. simpl. by rewrite <- app_assoc.
Qed.

Lemma getCurrentText_spec config fv parts tail :
  Placeholders (template config) parts tail →
  getCurrentText config fv = substitute (text_replacement config fv) parts tail.
Proof. intros Hp. unfold getCurrentText. by rewrite (replace_spec _ _ _ _ Hp). Qed.

(** X4. For a template none of whose placeholder keys is the name of a
    member of [Object.prototype], [getCurrentText] is the template with
    every placeholder of a known key replaced by the stored value, else the
    default, else the bracketed key, and with every placeholder of an
    unknown key left as it is, braces included. *)
Theorem getCurrentText_substitutes config fv parts tail :
  Placeholders (template config) parts tail →
  own_keys parts →
  getCurrentText config fv = substitute (text_replacement config fv) parts tail.
Proof. intros Hp _. by apply getCurrentText_spec. Qed.

Lemma getCurrentText_substitutes_witness :
  let config := {| template := js "Hi {name}, {nme}!";
                   fields := {[ js "name" := InputField (js "Your name") (Some (js "Ann")) ]} |} in
  let parts := [(js "Hi ", js "name"); (js ", ", js "nme")] in
  Placeholders (template config) parts (js "!")
  ∧ own_keys parts
  ∧ getCurrentText config ∅ = js "Hi Ann, {nme}!".
Proof.
  intros config parts.
  assert (Hp : Placeholders (template config) parts (js "!"))
    by (apply Placeholders_of_split; vm_compute; reflexivity).
  assert (Ho : own_keys parts)
    by (repeat constructor; vm_compute; reflexivity).
  split; [exact Hp|]. split; [exact Ho|].
  rewrite (getCurrentText_substitutes config ∅ parts (js "!") Hp Ho).
  vm_compute. reflexivity.
Defined.

(** X5. When none of the placeholder keys of the template is in the field
    mapping or the name of a member of [Object.prototype], [getCurrentText]
    returns the template unchanged, whatever the store holds. *)
Theorem getCurrentText_keeps_unknown_keys config fv parts tail :
  Placeholders (template config) parts tail →
  Forall (λ p, fields config !! p.2 = None) parts →
  own_keys parts →
  getCurrentText config fv = template config.
Proof.
  intros Hp Hunknown _. rewrite (getCurrentText_spec _ _ _ _ Hp).
  etransitivity; [|exact (substitute_braces _ _ _ Hp)].
  apply substitute_ext. eapply Forall_impl; [exact Hunknown|].
  intros [lit k] Hk. unfold text_replacement. simpl in *. by rewrite Hk.
Qed.

Lemma getCurrentText_keeps_unknown_keys_witness :
  let config := {| template := js "{a} and {b}";
                   fields := {[ js "c" := InputField [] None ]} |} in
  let fv : gmap (list N) (list N) := {[ js "a" := js "stored" ]} in
  let parts := [([], js "a"); (js " and ", js "b")] in
  Placeholders (template config) parts []
  ∧ Forall (λ p, fields config !! p.2 = None) parts
  ∧ own_keys parts
  ∧ getCurrentText config fv = js "{a} and {b}".
Proof.
  intros config fv parts.
  assert (Hp : Placeholders (template config) parts [])
    by (apply Placeholders_of_split; vm_compute; reflexivity).
  assert (Hu : Forall (λ p, fields config !! p.2 = None) parts)
    by (repeat constructor; vm_compute; reflexivity).
  assert (Ho : own_keys parts)
    by (repeat constructor; vm_compute; reflexivity).
  split; [exact Hp|]. split; [exact Hu|]. split; [exact Ho|].
  exact (getCurrentText_keeps_unknown_keys config fv parts [] Hp Hu Ho).
Defined.

Lemma initializeFieldValues_lookup config k :
  initializeFieldValues config !! k = seeded_value <$> fields config !! k.
Proof. unfold initializeFieldValues. by rewrite lookup_fmap. Qed.


(** X7. Right after the store is seeded, for a template none of whose
    placeholder keys is the name of a member of [Object.prototype],
    [getCurrentText] puts the default of each known field (the empty string
    when the field has none) in the place of its placeholders, never the
    bracketed key. *)
Theorem seeded_store_text config parts tail :
  Placeholders (template config) parts tail →
  own_keys parts →
  getCurrentText config (initializeFieldValues config)
  = substitute (λ k, match fields config !! k with
                     | Some f => seeded_value f
                     | None => LBRACE :: k ++ [RBRACE]
                     end) parts tail.
Proof.
  intros Hp _. rewrite (getCurrentText_spec _ _ _ _ Hp).
  apply substitute_ext, Forall_forall. intros [lit k] _. cbn [snd].
  unfold text_replacement. destruct (fields config !! k) as [f|] eqn:Hf; [|done].
  by rewrite initializeFieldValues_lookup, Hf.
Qed.

Lemma seeded_store_text_witness :
  let config := {| template := js "Hi {name}, {topic}!";
                   fields := {[ js "name" := InputField (js "Your name") (Some []);
                                js "topic" := SelectField [js "A"; js "B"] (Some (js "A")) ]} |} in
  let parts := [(js "Hi ", js "name"); (js ", ", js "topic")] in
  Placeholders (template config) parts (js "!")
  ∧ own_keys parts
  ∧ getCurrentText config (initializeFieldValues config) = js "Hi , A!"
  ∧ concat (map content (templateSegments config (initializeFieldValues config)))
    = js "Hi [name], A!".
Proof.
  intros config parts.
  assert (Hp : Placeholders (template config) parts (js "!"))
    by (apply Placeholders_of_split; vm_compute; reflexivity).
  assert (Ho : own_keys parts)
    by (repeat constructor; vm_compute; reflexivity).
  split; [exact Hp|]. split; [exact Ho|]. split.
  - rewrite (seeded_store_text config parts (js "!") Hp Ho). vm_compute. reflexivity.
  - vm_compute. reflexivity.
Defined.

(** ** Store queries and dropdown controller *)

Lemma OPTIONS_lookup config k :
  OPTIONS config !! k
  = match fields config !! k with
    | Some (SelectField options _) => Some options
    | _ => None
    end.
Proof.
  unfold OPTIONS. rewrite lookup_omap.
  by destruct (fields config !! k) as [[]|].
Qed.



Lemma dropdown_invariant config c :
  reachable config c →
  (showDropdown c = false → currentTarget c = None ∧ currentOptions c = [])
  ∧ (showDropdown c = true →
     is_Some (currentTarget c) ∧ currentField c ≠ []
     ∧ ∃ config0, OPTIONS config0 !! currentField c = Some (currentOptions c)).
Proof.
  induction 1 as [config els|config c _ IH|config overlay c _ IH
                  |config l c _ IH|config target c _ IH
                  |config innerText option c _ IH|config event_target c _ IH
                  |config innerText c _ IH|config innerText key value c _ IH
                  |config config0 c _ IH|config config0 c _ IH
                  |config els c _ IH];
    try exact IH; try (split; simpl; done).
  - unfold handleDropdownClick.
    destruct (elements c !! target) as [e|]; [|exact IH].
    destruct (el_data_field_key e) as [[|u key]|]; try exact IH.
    destruct (OPTIONS config !! (u :: key)) as [opts|] eqn:Ho; [|exact IH].
    split; [done|]. intros _. cbn.
    split; [by eexists|]. split; [done|]. exists config. by rewrite Ho.
  - unfold handleClickOutside.
    destruct (showDropdown c) eqn:Hshow; simpl; [|by rewrite Hshow].
    destruct (negb _); [|by rewrite Hshow].
    split; simpl; done.
Qed.







(** X12. A click on the painted region of a select field opens the
    dropdown for that field whatever was open before: afterwards the
    overlay is visible, the active key and the target are those of the
    clicked region and the options are those of its field; the store and
    the emitted events are untouched. *)
Theorem click_on_select_supersedes config target c e key options d :
  elements c !! target = Some e →
  el_data_field_key e = Some key →
  key ≠ [] →
  fields config !! key = Some (SelectField options d) →
  showDropdown (handleDropdownClick config target c) = true
  ∧ currentField (handleDropdownClick config target c) = key
  ∧ currentTarget (handleDropdownClick config target c) = Some target
  ∧ currentOptions (handleDropdownClick config target c) = options
  ∧ fieldValues (handleDropdownClick config target c) = fieldValues c
  ∧ elements (handleDropdownClick config target c) = elements c
  ∧ emitted (handleDropdownClick config target c) = emitted c.
Proof.
  intros He Hk Hne Hf. unfold handleDropdownClick. rewrite He, Hk.
  destruct key as [|u key]; [done|].
  assert (Ho : OPTIONS config !! (u :: key) = Some options)
    by (by rewrite OPTIONS_lookup, Hf).
  rewrite Ho. cbn. by rewrite Ho.
Qed.

Lemma click_on_select_supersedes_witness :
  showDropdown two_selects_open_a = true
  ∧ currentField two_selects_open_a = js "a"
  ∧ showDropdown (handleDropdownClick two_selects_config 2 two_selects_open_a) = true
  ∧ currentField (handleDropdownClick two_selects_config 2 two_selects_open_a) = js "b"
  ∧ currentTarget (handleDropdownClick two_selects_config 2 two_selects_open_a) = Some 2
  ∧ currentOptions (handleDropdownClick two_selects_config 2 two_selects_open_a)
    = [js "x"].
Proof.
  split; [reflexivity|]. split; [vm_compute; reflexivity|].
  destruct (click_on_select_supersedes two_selects_config 2 two_selects_open_a
              {| el_textContent := js "[b]"; el_data_value := js "[b]";
                 el_data_field_key := Some (js "b") |}
              (js "b") [js "x"] None
              ltac:(vm_compute; reflexivity) eq_refl ltac:(discriminate)
              ltac:(vm_compute; reflexivity))
    as (H1 & H2 & H3 & H4 & _).
  split; [exact H1|]. split; [exact H2|]. split; [exact H3|exact H4].
Defined.

(** X13. A selection commit touches one store entry and one painted
    region: every other key of the store and every other region keep what
    they had, and when a field is active the region that was clicked shows
    the option as its text and as its [data-value], with its
    [data-field-key] kept. *)
Theorem selectOption_frame config innerText o c :
  (∀ k, k ≠ currentField c →
        fieldValues (selectOption config innerText o c) !! k = fieldValues c !! k)
  ∧ (∀ t, currentTarget c ≠ Some t →
          elements (selectOption config innerText o c) !! t = elements c !! t)
  ∧ (∀ t e, currentField c ≠ [] → currentTarget c = Some t →
            elements c !! t = Some e →
            elements (selectOption config innerText o c) !! t
            = Some {| el_textContent := o; el_data_value := o;
                      el_data_field_key := el_data_field_key e |}).
Proof.
  unfold selectOption.
  destruct (currentField c) as [|u f] eqn:Hf;
    destruct (currentTarget c) as [t0|] eqn:Ht; cbn; repeat split; try done.
  - intros k Hk. by rewrite lookup_insert_ne.
  - intros t Hne. rewrite lookup_alter_ne; [done|congruence].
  - intros t e _ [= <-] He. by rewrite lookup_alter_eq, He.
Qed.

Lemma selectOption_frame_witness :
  fieldValues (selectOption two_selects_config None (js "2") two_selects_open_a)
  !! js "b" = None
  ∧ elements (selectOption two_selects_config None (js "2") two_selects_open_a) !! 2
    = elements two_selects_open_a !! 2
  ∧ elements (selectOption two_selects_config None (js "2") two_selects_open_a) !! 1
    = Some {| el_textContent := js "2"; el_data_value := js "2";
              el_data_field_key := Some (js "a") |}.
Proof.
  destruct (selectOption_frame two_selects_config None (js "2") two_selects_open_a)
    as (H1 & H2 & H3).
  split; [|split].
  - rewrite (H1 (js "b")); [reflexivity|vm_compute; discriminate].
  - apply H2. vm_compute. discriminate.
  - apply (H3 1 {| el_textContent := js "1"; el_data_value := js "1";
                   el_data_field_key := Some (js "a") |});
      [vm_compute; discriminate|reflexivity|vm_compute; reflexivity].
Defined.

(** X14. In a reachable state with no dropdown open, [selectOption] writes
    nothing to the store and to the painted regions, and still emits one
    change event carrying the unchanged store. *)
Theorem selectOption_while_closed config innerText o c :
  reachable config c →
  showDropdown c = false →
  fieldValues (selectOption config innerText o c) = fieldValues c
  ∧ elements (selectOption config innerText o c) = elements c
  ∧ emitted (selectOption config innerText o c)
    = emitted c ++ [{| payload_text := getDisplayText config innerText c;
                       payload_values := fieldValues c |}]
  ∧ showDropdown (selectOption config innerText o c) = false.
Proof.
  intros Hreach Hshow.
  destruct (proj1 (dropdown_invariant config c Hreach) Hshow) as [Ht _].
  unfold selectOption. rewrite Ht. by destruct (currentField c).
Qed.

Lemma selectOption_while_closed_witness :
  let c := selectOption demo_config None (js "C") demo_open in
  reachable demo_config c ∧ showDropdown c = false
  ∧ fieldValues (selectOption demo_config None (js "A") c) = fieldValues c
  ∧ length (emitted (selectOption demo_config None (js "A") c))
    = S (length (emitted c)).
Proof.
  intros c.
  assert (Hr : reachable demo_config c)
    by (constructor; exact demo_open_reachable).
  split; [exact Hr|]. split; [reflexivity|].
  destruct (selectOption_while_closed demo_config None (js "A") c Hr eq_refl)
    as (H1 & _ & H3 & _).
  split; [exact H1|]. rewrite H3, length_app. simpl. lia.
Defined.

(** X15. A click inside the painted overlay leaves the whole state as it
    is: the overlay stays open for the same field. *)
Theorem click_inside_overlay_keeps_state event_target c overlay :
  dropdownMenuRef c = Some overlay →
  event_target ∈ overlay →
  handleClickOutside event_target c = c.
Proof.
  intros Hov Hin. unfold handleClickOutside.
  destruct (showDropdown c); simpl; [|done].
  rewrite Hov. by rewrite bool_decide_eq_true_2.
Qed.

Lemma click_inside_overlay_keeps_state_witness :
  let c := set_dropdownMenuRef (Some {[ 20; 21; 22 ]}) demo_open in
  dropdownMenuRef c = Some {[ 20; 21; 22 ]} ∧ 21 ∈ ({[ 20; 21; 22 ]} : gset nat)
  ∧ handleClickOutside 21 c = c.
Proof.
  intros c.
  assert (Hin : 21 ∈ ({[ 20; 21; 22 ]} : gset nat)).
  { apply (proj1 (bool_decide_eq_true _)). vm_compute. reflexivity. }
  split; [reflexivity|]. split; [exact Hin|].
  exact (click_inside_overlay_keeps_state 21 c _ eq_refl Hin).
Defined.

Lemma handleChange_component config innerText f c :
  (handleChange config innerText (f, c)).2 = c
  ∨ ∃ key value,
      (handleChange config innerText (f, c)).2
      = emitChange config innerText (set_fieldValue key value c).
Proof.
  unfold handleChange. cbn [fst snd].
  destruct (isProgrammaticChange f); [by left|].
  destruct (ensureInputElement f) as [currentSpan f1].
  destruct (data_field_key _) as [[|u key]|]; [by left| |by left].
  right. by eexists _, _.
Qed.

(** X16. No handler takes back an emitted event, and no handler changes the
    store silently: after a handler step the events emitted before are a
    prefix of the events emitted, and either the store is what it was or
    the last event carries the new store. *)
Theorem handler_step_notifies config c c' :
  handler_step config c c' →
  emitted c `prefix_of` emitted c'
  ∧ (fieldValues c' = fieldValues c
     ∨ ∃ p, emitted c' = emitted c ++ [p] ∧ payload_values p = fieldValues c').
Proof.
  destruct 1 as [target c|innerText option c|event_target c|innerText c|innerText f c].
  - unfold handleDropdownClick.
    destruct (elements c !! target) as [e|]; [|by split; [|left]].
    destruct (el_data_field_key e) as [[|u key]|]; try (by split; [|left]).
    destruct (OPTIONS config !! (u :: key)); by split; [|left].
  - unfold selectOption.
    destruct (currentField c) as [|u f]; destruct (currentTarget c) as [t|]; cbn;
      (split; [by apply prefix_app_r|right; by eexists]).
  - unfold handleClickOutside.
    destruct (showDropdown c); simpl; [|by split; [|left]].
    destruct (negb _); by split; [|left].
  - cbn. split; [by apply prefix_app_r|by left].
  - destruct (handleChange_component config innerText f c) as [->|(key & value & ->)].
    + by split; [|left].
    + cbn. split; [by apply prefix_app_r|right; by eexists].
Qed.

Lemma handler_step_notifies_witness :
  let c' := selectOption demo_config None (js "C") demo_open in
  handler_step demo_config demo_open c'
  ∧ emitted demo_open `prefix_of` emitted c'
  ∧ ∃ p, emitted c' = emitted demo_open ++ [p] ∧ payload_values p = fieldValues c'.
Proof.
  intros c'.
  assert (Hs : handler_step demo_config demo_open c') by constructor.
  split; [exact Hs|].
  destruct (handler_step_notifies demo_config demo_open c' Hs) as [H1 H2].
  split; [exact H1|].
  destruct H2 as [H2|H2]; [|exact H2].
  exfalso. apply (f_equal (λ m : gmap (list N) (list N), m !! js "topic")) in H2.
  vm_compute in H2. discriminate H2.
Defined.

(** ** Horizontal recovery of the overlay *)

(** X17. Scroll-compensating revision, overlay painted: an overlay that
    fits keeps the anchor's left; an overlay whose right edge would pass
    the container's client width is moved so that its right edge sits 10
    pixels inside that width, and is put at left 0 when it is too wide
    for that; its left is then never negative. The top is the anchor's. *)
Theorem scroll_horizontal_recovery l style cont menu :
  container l = Some cont →
  dropdownMenu l = Some menu →
  let anchorLeft :=
    (rect_left (targetRect l) - rect_left (containerRect cont) + scrollLeft cont)%Z in
  let left := css_left (ScrollPositioning.position l style) in
  ((anchorLeft + offsetWidth menu ≤ clientWidth cont)%Z → left = anchorLeft)
  ∧ ((clientWidth cont < anchorLeft + offsetWidth menu)%Z →
     left = Z.max (clientWidth cont - 10 - offsetWidth menu) 0
     ∧ (0 ≤ left)%Z
     ∧ ((0 ≤ clientWidth cont - 10 - offsetWidth menu)%Z →
        (left + offsetWidth menu = clientWidth cont - 10)%Z)).
Proof.
  intros Hc Hm anchorLeft left. subst anchorLeft left.
  unfold ScrollPositioning.position. rewrite Hc, Hm. cbn zeta.
  destruct (Z.ltb_spec (clientWidth cont)
              (rect_left (targetRect l) - rect_left (containerRect cont)
               + scrollLeft cont + offsetWidth menu)) as [Hlt|Hge];
    cbn [css_left]; split; intros H; lia.
Qed.

Lemma scroll_horizontal_recovery_witness :
  css_left (ScrollPositioning.position narrow_layout {| css_top := 0; css_left := 0 |})
  = 170%Z.
Proof.
  destruct (scroll_horizontal_recovery narrow_layout {| css_top := 0; css_left := 0 |}
              _ _ eq_refl eq_refl) as [_ H].
  destruct (H ltac:(vm_compute; reflexivity)) as (-> & _).
  vm_compute. reflexivity.
Defined.

(** X18. Revision measuring with [getBoundingClientRect], overlay painted:
    the same horizontal recovery against the width of the container's
    rectangle, whatever the vertical check decides. *)
Theorem rect_horizontal_recovery l style cont menu :
  container l = Some cont →
  dropdownMenu l = Some menu →
  let relativeLeft :=
    (rect_left (targetRect l) - rect_left (containerRect cont))%Z in
  let width := rect_width (dropdownRect menu) in
  let containerWidth := rect_width (containerRect cont) in
  let left := css_left (RectPositioning.position l style) in
  ((relativeLeft + width ≤ containerWidth)%Z → left = relativeLeft)
  ∧ ((containerWidth < relativeLeft + width)%Z →
     left = Z.max (containerWidth - 10 - width) 0
     ∧ (0 ≤ left)%Z
     ∧ ((0 ≤ containerWidth - 10 - width)%Z →
        (left + width = containerWidth - 10)%Z)).
Proof.
  intros Hc Hm relativeLeft width containerWidth left.
  subst relativeLeft width containerWidth left.
  unfold RectPositioning.position. rewrite Hc, Hm. cbn zeta.
  destruct (Z.ltb_spec (rect_width (containerRect cont))
              (rect_left (targetRect l) - rect_left (containerRect cont)
               + rect_width (dropdownRect menu))) as [Hlt|Hge];
    destruct (_ <? _)%Z; cbn [css_left]; split; intros H; lia.
Qed.

Lemma rect_horizontal_recovery_witness :
  css_left (RectPositioning.position narrow_layout {| css_top := 0; css_left := 0 |})
  = 170%Z.
Proof.
  destruct (rect_horizontal_recovery narrow_layout {| css_top := 0; css_left := 0 |}
              _ _ eq_refl eq_refl) as [_ H].
  destruct (H ltac:(vm_compute; reflexivity)) as (-> & _).
  vm_compute. reflexivity.
Defined.

(** X19. Revision measuring with [getBoundingClientRect], overlay painted:
    an overlay whose bottom edge stays within the container's height is
    anchored 4 pixels below the clicked element. *)
Theorem rect_fits_below l style cont menu :
  container l = Some cont →
  dropdownMenu l = Some menu →
  (rect_bottom (targetRect l) - rect_top (containerRect cont) + 4
   + rect_height (dropdownRect menu) ≤ rect_height (containerRect cont))%Z →
  css_top (RectPositioning.position l style)
  = (rect_bottom (targetRect l) - rect_top (containerRect cont) + 4)%Z.
Proof.
  intros Hc Hm Hfit. unfold RectPositioning.position. rewrite Hc, Hm. cbn zeta.
  destruct (Z.ltb_spec (rect_height (containerRect cont))
              (rect_bottom (targetRect l) - rect_top (containerRect cont) + 4
               + rect_height (dropdownRect menu))) as [Hlt|_]; [lia|].
  by destruct (_ <? _)%Z.
Qed.

Lemma rect_fits_below_witness :
  css_top (RectPositioning.position narrow_layout {| css_top := 0; css_left := 0 |})
  = 34%Z.
Proof.
  rewrite (rect_fits_below narrow_layout _ _ _ eq_refl eq_refl
             ltac:(vm_compute; discriminate)).
  vm_compute. reflexivity.
Defined.

(** ** Normalisation of the text of an editable field *)















(** ** The change handler, run by run *)

Lemma ensureInputElement_connected f :
  inputSpan_isConnected f = true → ensureInputElement f = (CapturedSpan, f).
Proof. intros H. unfold ensureInputElement. by rewrite H. Qed.

Lemma ensureInputElement_data_field_key f :
  data_field_key (ensureInputElement f).2 = data_field_key f.
Proof. unfold ensureInputElement. by destruct (inputSpan_isConnected f). Qed.

(** A run of [handleChange] with the flag down, in one equation. *)
Lemma handleChange_run config innerText f c :
  isProgrammaticChange f = false →
  handleChange config innerText (f, c)
  = let currentSpan := (ensureInputElement f).1 in
    let f1 := (ensureInputElement f).2 in
    let v := trim (strip_markers (span_textContent f1 currentSpan)) in
    let hasContent := negb (is_empty_string v) in
    (set_has_content hasContent
       (if hasContent then f1 else insert_marker currentSpan f1),
     match data_field_key f with
     | Some (u :: key) => emitChange config innerText (set_fieldValue (u :: key) v c)
     | _ => c
     end).
Proof.
  intros Hflag. unfold handleChange. cbn [fst snd]. rewrite Hflag.
  pose proof (ensureInputElement_data_field_key f) as Hkey.
  destruct (ensureInputElement f) as [currentSpan f1]. cbn [fst snd] in *.
  cbn zeta.
  assert (Hk3 : ∀ b, data_field_key
                       (set_has_content b
                          (if b then f1 else insert_marker currentSpan f1))
                     = data_field_key f).
  { intros []; cbn; exact Hkey. }
  rewrite Hk3. by destruct (data_field_key f) as [[|u key]|].
Qed.



(** X21. A run of [handleChange] writes the store entry of its own field
    only and emits exactly one change event, which carries the new store;
    the dropdown state is not touched. When the field element has no
    [data-field-key], or an empty one, the component is left as it is. *)
Theorem handleChange_store_frame config innerText f c :
  isProgrammaticChange f = false →
  (∀ u key, data_field_key f = Some (u :: key) →
     (∀ k, k ≠ u :: key →
        fieldValues (handleChange config innerText (f, c)).2 !! k = fieldValues c !! k)
     ∧ (∃ p, emitted (handleChange config innerText (f, c)).2 = emitted c ++ [p]
             ∧ payload_values p = fieldValues (handleChange config innerText (f, c)).2)
     ∧ showDropdown (handleChange config innerText (f, c)).2 = showDropdown c
     ∧ currentField (handleChange config innerText (f, c)).2 = currentField c
     ∧ elements (handleChange config innerText (f, c)).2 = elements c)
  ∧ (data_field_key f = None ∨ data_field_key f = Some [] →
     (handleChange config innerText (f, c)).2 = c).
Proof.
  intros Hflag. rewrite (handleChange_run _ _ _ _ Hflag). cbn zeta. split.
  - intros u key Hkey. rewrite Hkey. cbn. repeat split; try done.
    + intros k Hk. by rewrite lookup_insert_ne.
    + by eexists.
  - by intros [->| ->].
Qed.

Lemma handleChange_store_frame_witness :
  let c := set_fieldValues (initializeFieldValues demo_config) (initial_component ∅) in
  fieldValues (handleChange demo_config None (typed_field, c)).2 !! js "topic"
  = Some (js "A")
  ∧ length (emitted (handleChange demo_config None (typed_field, c)).2) = 1.
Proof.
  intros c.
  destruct (proj1 (handleChange_store_frame demo_config None typed_field c eq_refl)
              110%N (js "ame") eq_refl) as (H1 & (p & H2 & _) & _).
  split.
  - rewrite (H1 (js "topic") ltac:(discriminate)). vm_compute. reflexivity.
  - rewrite H2. reflexivity.
Defined.

(** X22. When the input span (still in the document) holds text that is
    not empty once stripped and trimmed, a run of [handleChange] leaves the
    document as the user made it: the nodes of the span, the caret, the
    pending timers and the flag are what they were, no span is created,
    and the field is marked as having content. *)
Theorem handleChange_keeps_user_text config innerText f c :
  isProgrammaticChange f = false →
  inputSpan_isConnected f = true →
  trim (strip_markers (concat (map textContent (inputSpan f)))) ≠ [] →
  (handleChange config innerText (f, c)).1 = set_has_content true f.
Proof.
  intros Hflag Hconn Hcontent. rewrite (handleChange_run _ _ _ _ Hflag).
  rewrite (ensureInputElement_connected _ Hconn). cbn [fst snd]. cbn zeta.
  unfold span_textContent, span_childNodes.
  by destruct (trim _).
Qed.

Lemma handleChange_keeps_user_text_witness :
  inputSpan (handleChange demo_config None (typed_field, initial_component ∅)).1
  = [TextNode (ZWSP :: js " Ann ")]
  ∧ isProgrammaticChange
      (handleChange demo_config None (typed_field, initial_component ∅)).1 = false.
Proof.
  rewrite (handleChange_keeps_user_text demo_config None typed_field
             (initial_component ∅) eq_refl eq_refl
             ltac:(vm_compute; discriminate)).
  split; reflexivity.
Defined.

(** A run of [handleChange] with the flag down on a span that is in the
    document. *)
Lemma handleChange_connected config innerText f c v :
  isProgrammaticChange f = false →
  inputSpan_isConnected f = true →
  trim (strip_markers (concat (map textContent (inputSpan f)))) = v →
  handleChange config innerText (f, c)
  = (set_has_content (negb (is_empty_string v))
       (if negb (is_empty_string v) then f else insert_marker CapturedSpan f),
     match data_field_key f with
     | Some (u :: key) => emitChange config innerText (set_fieldValue (u :: key) v c)
     | _ => c
     end).
Proof.
  intros Hflag Hconn Hv. rewrite (handleChange_run _ _ _ _ Hflag).
  rewrite (ensureInputElement_connected _ Hconn). cbn [fst snd]. cbn zeta.
  unfold span_textContent, span_childNodes. by rewrite Hv.
Qed.

(** X23. Normalisation settles: once the flag has been cleared, a second
    run of [handleChange] on a span that is in the document leaves the
    nodes of the span, the content mark and the store as the first run
    left them. *)
Theorem handleChange_idempotent config innerText innerText' f c :
  isProgrammaticChange f = false →
  inputSpan_isConnected f = true →
  let s1 := handleChange config innerText (f, c) in
  let s2 := handleChange config innerText' (clear_programmatic_change s1.1, s1.2) in
  inputSpan s2.1 = inputSpan s1.1
  ∧ data_has_content s2.1 = data_has_content s1.1
  ∧ fieldValues s2.2 = fieldValues s1.2.
Proof.
  intros Hflag Hconn s1 s2. subst s2 s1.
  destruct (trim (strip_markers (concat (map textContent (inputSpan f)))))
    as [|a v] eqn:Hv.
  - rewrite (handleChange_connected config innerText f c [] Hflag Hconn Hv).
    cbn [is_empty_string negb fst snd].
    rewrite (handleChange_connected config innerText' _ _ []);
      [|reflexivity|exact Hconn|reflexivity].
    cbn [is_empty_string negb fst snd]. split; [reflexivity|]. split; [reflexivity|].
    cbn [data_field_key clear_programmatic_change set_has_content insert_marker].
    destruct (data_field_key f) as [[|u key]|]; try reflexivity.
    cbn. by rewrite insert_insert_eq.
  - rewrite (handleChange_connected config innerText f c (a :: v) Hflag Hconn Hv).
    cbn [is_empty_string negb fst snd].
    rewrite (handleChange_connected config innerText' _ _ (a :: v));
      [|reflexivity|exact Hconn|exact Hv].
    cbn [is_empty_string negb fst snd]. split; [reflexivity|]. split; [reflexivity|].
    cbn [data_field_key clear_programmatic_change set_has_content].
    destruct (data_field_key f) as [[|u key]|]; try reflexivity.
    cbn. by rewrite insert_insert_eq.
Qed.

Lemma handleChange_idempotent_witness :
  let s1 := handleChange demo_config None (demo_field, initial_component ∅) in
  let s2 := handleChange demo_config None (clear_programmatic_change s1.1, s1.2) in
  inputSpan s1.1 = [TextNode [ZWSP]]
  ∧ inputSpan s2.1 = [TextNode [ZWSP]]
  ∧ fieldValues s2.2 = fieldValues s1.2.
Proof.
  intros s1 s2.
  destruct (handleChange_idempotent demo_config None None demo_field
              (initial_component ∅) eq_refl eq_refl) as (H1 & _ & H3).
  split; [vm_compute; reflexivity|]. split; [|exact H3].
  transitivity (inputSpan s1.1); [exact H1|vm_compute; reflexivity].
Defined.

(** X24. Loop suppression. After a run of [handleChange] that put the
    marker into an empty field, the mutation observer's callback and any
    further call of [handleChange] change nothing, and the timer the run
    scheduled lowers the flag again: with no other timer pending, firing it
    leaves the flag down, no timer pending, and the span, the store and the
    emitted events as the run left them. *)
Theorem marker_insertion_is_not_reentered config innerText innerText' f c :
  isProgrammaticChange f = false →
  trim (strip_markers
          (span_textContent (ensureInputElement f).2 (ensureInputElement f).1)) = [] →
  let s1 := handleChange config innerText (f, c) in
  observer_callback config innerText' s1 = s1
  ∧ handleChange config innerText' s1 = s1
  ∧ (timers f = [] →
     isProgrammaticChange (fire_timer config innerText' s1).1 = false
     ∧ timers (fire_timer config innerText' s1).1 = []
     ∧ inputSpan (fire_timer config innerText' s1).1 = inputSpan s1.1
     ∧ createdSpans (fire_timer config innerText' s1).1 = createdSpans s1.1
     ∧ (fire_timer config innerText' s1).2 = s1.2).
Proof.
  intros Hflag Hempty s1.
  assert (Hs1 : s1.1 = set_has_content false
                         (insert_marker (ensureInputElement f).1 (ensureInputElement f).2)).
  { subst s1. rewrite (handleChange_run _ _ _ _ Hflag). cbn zeta.
    by rewrite Hempty. }
  assert (Hraised : isProgrammaticChange s1.1 = true) by (by rewrite Hs1).
  assert (Hsame : handleChange config innerText' s1 = s1).
  { destruct s1 as [f1 c1]. by apply handleChange_suppressed. }
  split; [|split; [exact Hsame|]].
  - unfold observer_callback. by rewrite Hraised.
  - intros Htimers. unfold fire_timer. rewrite Hs1.
    cbn [timers set_has_content insert_marker].
    assert (Ht : timers (ensureInputElement f).2 = timers f).
    { unfold ensureInputElement. by destruct (inputSpan_isConnected f). }
    rewrite Ht, Htimers. cbn. done.
Qed.

Lemma marker_insertion_is_not_reentered_witness :
  let s1 := handleChange demo_config None (demo_field, initial_component ∅) in
  isProgrammaticChange s1.1 = true
  ∧ observer_callback demo_config None s1 = s1
  ∧ isProgrammaticChange (fire_timer demo_config None s1).1 = false.
Proof.
  intros s1.
  destruct (marker_insertion_is_not_reentered demo_config None None demo_field
              (initial_component ∅) eq_refl ltac:(vm_compute; reflexivity))
    as (H1 & _ & H3).
  split; [vm_compute; reflexivity|]. split; [exact H1|].
  exact (proj1 (H3 eq_refl)).
Defined.



(** On a field element without parent the deletion ends with no range. *)
Lemma remove_field_detached f :
  hasParent f = false → selection (remove_field f) = None.
Proof.
  intros Hparent. unfold remove_field. rewrite Hparent.
  cbn [focusNode selection fst snd]. by rewrite setStart_caret_length.
Qed.

(** X26. For a field element in the document, the caret placement of the
    whole-field deletion always succeeds: [setStart] is given an offset
    within the node it is given, so the selection ends as a collapsed range
    and the fallback to the end of the editable area is never taken. For a
    field element without parent (it was removed before) the range is made
    in the detached input span, [addRange] ignores it after
    [removeAllRanges], and the selection ends with no range. *)
Theorem remove_field_caret f :
  (hasParent f = true →
   ∃ node offset, selection (remove_field f) = Some (Collapsed node offset))
  ∧ (hasParent f = false → selection (remove_field f) = None).
Proof.
  split; [|apply remove_field_detached].
  unfold remove_field.
  - intros Hparent. rewrite Hparent. cbn [selection].
    destruct (focusNode (last (previousSiblings f)))
      as [[path n]|]; cbn [fst snd];
      [rewrite setStart_caret_length; by eexists _, _|].
    destruct (focusNode (head (nextSiblings f)))
      as [[path n]|]; cbn [fst snd];
      rewrite setStart_caret_length; by eexists _, _.
Qed.

Lemma remove_field_caret_witness :
  hasParent demo_field = true
  ∧ hasParent (remove_field demo_field) = false
  ∧ (∃ node offset,
       selection (remove_field demo_field) = Some (Collapsed node offset))
  ∧ selection (remove_field (remove_field demo_field)) = None.
Proof.
  split; [reflexivity|]. split; [reflexivity|].
  split; [exact (proj1 (remove_field_caret demo_field) eq_refl)|].
  exact (proj2 (remove_field_caret (remove_field demo_field)) eq_refl).
Defined.

(** The flags seen so far do not influence the listeners still to run. *)
Lemma dispatch_seen config innerText e flags seen st :
  foldl (λ (acc : list bool * (EditableField * Component)) flag,
           let st := listener config innerText e (with_flag flag acc.2.1, acc.2.2) in
           (acc.1 ++ [isProgrammaticChange st.1], st))
        (seen, st) flags
  = (seen ++ (dispatch config innerText e flags st).1,
     (dispatch config innerText e flags st).2).
Proof.
  unfold dispatch. revert seen st.
  induction flags as [|flag flags IH]; intros seen st.
  - cbn [foldl fst snd]. by rewrite app_nil_r.
  - cbn [foldl fst snd]. rewrite IH. rewrite (IH ([] ++ _)).
    cbn [fst snd app]. by rewrite <- app_assoc.
Qed.

(** The listeners of the later closures run on what the first one left. *)
Lemma dispatch_cons config innerText e flag flags f c :
  dispatch config innerText e (flag :: flags) (f, c)
  = let st := listener config innerText e (with_flag flag f, c) in
    let rest := dispatch config innerText e flags st in
    (isProgrammaticChange st.1 :: rest.1, rest.2).
Proof.
  unfold dispatch at 1. cbn [foldl fst snd app].
  by rewrite dispatch_seen.
Qed.

Lemma deletion_on_removed_field config innerText key flags f c :
  is_delete_key key = true →
  trim (strip_markers (concat (map textContent (inputSpan f)))) = [] →
  hasParent f = false →
  flags ≠ [] →
  let after := dispatch config innerText (keydown key) flags (f, c) in
  selection after.2.1 = None ∧ hasParent after.2.1 = false
  ∧ inputSpan after.2.1 = inputSpan f ∧ after.2.2 = c.
Proof.
  intros Hkey. revert f.
  induction flags as [|flag flags IH]; intros f Hempty Hparent Hne; [done|].
  rewrite dispatch_cons,
    (listener_deletion config innerText key (with_flag flag f) c Hkey Hempty).
  cbn zeta. cbn [fst snd].
  destruct flags as [|flag' flags].
  - cbn [dispatch foldl fst snd].
    split; [|done].
    exact (remove_field_detached (with_flag flag f) Hparent).
  - specialize (IH (remove_field (with_flag flag f)) Hempty eq_refl ltac:(done)).
    exact IH.
Qed.

(** X30. Every click on a field adds the listeners of a new closure and
    none is removed, so on a field clicked at least twice one Backspace or
    Delete press in the emptied field runs the whole-field deletion once per
    closure. The first run removes the field element and places the caret;
    every later run works on the detached element: it clears the selection
    and the range it adds is ignored. The field element is removed, the
    other children, the store and the emitted events stay as they are, and
    the selection ends with no range. *)
Theorem repeated_deletion_loses_caret config innerText f c key flag1 flag2 flags :
  is_delete_key key = true →
  trim (strip_markers (concat (map textContent (inputSpan f)))) = [] →
  let after :=
    dispatch config innerText (keydown key) (flag1 :: flag2 :: flags) (f, c) in
  selection after.2.1 = None
  ∧ hasParent after.2.1 = false
  ∧ after.2.2 = c.
Proof.
  intros Hkey Hempty after. subst after.
  rewrite dispatch_cons,
    (listener_deletion config innerText key (with_flag flag1 f) c Hkey Hempty).
  cbn zeta. cbn [fst snd].
  destruct (deletion_on_removed_field config innerText key (flag2 :: flags)
              (remove_field (with_flag flag1 f)) c Hkey Hempty eq_refl ltac:(done))
    as (Hsel & Hpar & _ & Hc).
  done.
Qed.

Lemma repeated_deletion_loses_caret_witness :
  let config := {| template := js "Hi {name}!";
                   fields := {[ js "name" := InputField (js "Your name") (Some []) ]} |} in
  let c := initial_component ∅ in
  is_delete_key "Backspace" = true ∧
  trim (strip_markers (concat (map textContent (inputSpan demo_field)))) = [] ∧
  selection (dispatch config None (keydown "Backspace") [false] (demo_field, c)).2.1
  = Some (Collapsed (InSibling 0 []) 3) ∧
  selection (dispatch config None (keydown "Backspace") [false; false]
               (demo_field, c)).2.1 = None.
Proof.
  intros config c.
  assert (H1 : is_delete_key "Backspace" = true) by reflexivity.
  assert (H2 : trim (strip_markers (concat (map textContent (inputSpan demo_field)))) = [])
    by (vm_compute; reflexivity).
  split; [exact H1|]. split; [exact H2|]. split; [vm_compute; reflexivity|].
  exact (proj1 (repeated_deletion_loses_caret config None demo_field c "Backspace"
                  false false [] H1 H2)).
Defined.

(** ** Click on an editable field and reset of the painted fields *)

(** The closure [handleEditableField] sets up before it calls
    [handleChange]. *)
Lemma handleEditableField_Some config innerText target around c nodes :
  fe_input target = Some nodes →
  fe_has_placeholder target = true →
  ∃ f0,
    handleEditableField config innerText target around c
    = Some (handleChange config innerText (f0, c))
    ∧ isProgrammaticChange f0 = false
    ∧ inputSpan_isConnected f0 = true
    ∧ data_field_key f0 = fe_data_field_key target
    ∧ is_Some (selection f0)
    ∧ inputSpan f0 = match nodes with
                     | TextNode _ :: _ => nodes
                     | _ => [TextNode []]
                     end.
Proof.
  intros Hin Hph. unfold handleEditableField. rewrite Hin, Hph.
  eexists. split; [reflexivity|]. cbn. repeat split; try done.
Qed.

(** X27. A click on an editable field does nothing when the field element
    lacks its input span or its placeholder span. Otherwise, once
    [handleEditableField] has run, the input span starts with a text node,
    its text is not empty (the user's text, or one marker), a caret is set
    and the span is still the one in the document. *)
Theorem handleEditableField_result config innerText target around c :
  (fe_input target = None ∨ fe_has_placeholder target = false →
   handleEditableField config innerText target around c = None)
  ∧ (∀ nodes, fe_input target = Some nodes → fe_has_placeholder target = true →
       ∃ f' c',
         handleEditableField config innerText target around c = Some (f', c')
         ∧ (∃ d rest, inputSpan f' = TextNode d :: rest)
         ∧ concat (map textContent (inputSpan f')) ≠ []
         ∧ is_Some (selection f')
         ∧ inputSpan_isConnected f' = true).
Proof.
  split.
  - unfold handleEditableField. intros [->|Hph]; [done|].
    rewrite Hph. by destruct (fe_input target).
  - intros nodes Hin Hph.
    destruct (handleEditableField_Some config innerText target around c nodes Hin Hph)
      as (f0 & -> & Hflag & Hconn & _ & Hsel & Hspan).
    destruct (trim (strip_markers (concat (map textContent (inputSpan f0)))))
      as [|a v] eqn:Hv.
    + rewrite (handleChange_connected _ _ _ _ [] Hflag Hconn Hv).
      eexists _, _. split; [reflexivity|]. cbn. rewrite Hconn.
      split; [by eexists _, _|]. split; [done|]. split; [by eexists|done].
    + rewrite (handleChange_connected _ _ _ _ (a :: v) Hflag Hconn Hv).
      eexists _, _. split; [reflexivity|]. cbn [is_empty_string negb].
      cbn [inputSpan set_has_content selection inputSpan_isConnected].
      split; [|split; [|split; [exact Hsel|exact Hconn]]].
      * rewrite Hspan. destruct nodes as [|[d|d|cs] rest]; by eexists _, _.
      * intros Hnil. rewrite Hnil in Hv. discriminate Hv.
Qed.

Lemma handleEditableField_result_witness :
  handleEditableField demo_config None
    {| fe_data_field_key := Some (js "name"); fe_input := None;
       fe_has_placeholder := true; fe_data_has_content := None |}
    plain_surroundings (initial_component ∅) = None
  ∧ ∃ f' c',
      handleEditableField demo_config None
        {| fe_data_field_key := Some (js "name"); fe_input := Some [CommentNode []];
           fe_has_placeholder := true; fe_data_has_content := None |}
        plain_surroundings (initial_component ∅) = Some (f', c')
      ∧ inputSpan f' = [TextNode [ZWSP]].
Proof.
  split.
  - apply (proj1 (handleEditableField_result _ _ _ _ _)). by left.
  - destruct (proj2 (handleEditableField_result demo_config None
                       {| fe_data_field_key := Some (js "name");
                          fe_input := Some [CommentNode []];
                          fe_has_placeholder := true; fe_data_has_content := None |}
                       plain_surroundings (initial_component ∅))
                [CommentNode []] eq_refl eq_refl) as (f' & c' & H & _).
    exists f', c'. split; [exact H|].
    vm_compute in H. injection H as <- _. reflexivity.
Defined.




